(** * Scroll-driven animation and typing-effect engine of the portfolio page

    A shallow embedding of the stateful hooks and components of
    [src/frontend/src/App.tsx]:

    - [useTypingEffect]      (module [Typing]),
    - [useScrollAnimation]   (module [Visibility]),
    - [AnimatedProgressBar] and [LanguageCircle] (module [Progress]),
    - the scroll handler of [Navbar] (module [Nav]).

    React state is modelled by explicit state passing: a component's state
    is a record, an effect is a function from the rendered state to what the
    effect body does (timers it schedules, setters it calls), and host
    events (timer expiry, intersection notifications, scroll events) are
    the inputs of a step function. *)

From Stdlib Require Import Bool Arith ZArith List String Ascii Lia QArith Lqa.
Import ListNotations.

Local Close Scope Q_scope.
Local Open Scope string_scope.

(** ** JavaScript strings

    The engine uses three string operations only: [.length], strict
    equality and [.slice(0, e)].  Strings are modelled by [string]; the
    nature of the code units plays no role. *)

Module JS.

(** [s.slice(0, e)]: a negative [e] counts from the end, and both bounds are
    clamped to [0 .. s.length]. *)
Definition slice0 (s : string) (e : Z) : string :=
  let len := Z.of_nat (String.length s) in
  let upto := if (e <? 0)%Z then Z.max (len + e) 0 else Z.min e len in
  substring 0 (Z.to_nat upto) s.

(** [a === b] where [b] may be [undefined] (an out-of-range array read). *)
Definition strict_eq (a : string) (b : option string) : bool :=
  match b with
  | Some b' => String.eqb a b'
  | None => false
  end.

(** Numbers held in [phraseIndex]: a non-negative integer, or [NaN], which
    is what [% 0] yields. *)
Inductive index : Type :=
| Num (n : nat)
| NaN.

(** [arr[i]]: [undefined] out of range and at [NaN]. *)
Definition get {A : Type} (arr : list A) (i : index) : option A :=
  match i with
  | Num n => nth_error arr n
  | NaN => None
  end.

(** [(prev + 1) % len]. *)
Definition succ_mod (prev : index) (len : nat) : index :=
  match prev, len with
  | Num p, S _ => Num ((p + 1) mod len)
  | _, _ => NaN
  end.

(** [setTimeout] treats a negative delay as zero. *)
Definition clamp_delay (d : Z) : Z := Z.max 0 d.

End JS.

(** ** The typing effect hook *)

Module Typing.

Import JS.

(** The three [useState] cells of [useTypingEffect]. *)
Record State : Type := mkState {
  displayText : string;
  phraseIndex : index;
  isDeleting : bool
}.

(** [useState("")], [useState(0)], [useState(false)]. *)
Definition initial : State :=
  {| displayText := ""; phraseIndex := Num 0; isDeleting := false |}.

Definition setDisplayText (v : string) (s : State) : State :=
  {| displayText := v; phraseIndex := phraseIndex s; isDeleting := isDeleting s |}.

Definition setPhraseIndex (f : index -> index) (s : State) : State :=
  {| displayText := displayText s; phraseIndex := f (phraseIndex s);
     isDeleting := isDeleting s |}.

Definition setIsDeleting (v : bool) (s : State) : State :=
  {| displayText := displayText s; phraseIndex := phraseIndex s; isDeleting := v |}.

(** What running a timer callback does: it calls a setter, or it throws
    before reaching the setter. *)
Inductive outcome : Type :=
| Updated (s : State)
| TypeError.

(** What one run of the effect body does: it either schedules one timer
    ([timeout = setTimeout(callback, delay)]) or calls setters directly and
    leaves [timeout] undefined.  Setters called in one effect run are
    batched into one re-render, so [Immediate] carries the state after all
    of them. *)
Inductive effect : Type :=
| SetTimeout (callback : State -> outcome) (delay : Z)
| Immediate (s' : State).

Section Engine.

Variable phrases : list string.
Variables typingSpeed deletingSpeed pauseDuration : Z.

(** The body of the [useEffect] callback, run after the render of [s]. *)
Definition useTypingEffect (s : State) : effect :=
  let currentPhrase := get phrases (phraseIndex s) in
  if negb (isDeleting s) && strict_eq (displayText s) currentPhrase then
    SetTimeout (fun st => Updated (setIsDeleting true st)) pauseDuration
  else if isDeleting s && String.eqb (displayText s) "" then
    Immediate
      (setPhraseIndex (fun prev => succ_mod prev (List.length phrases))
         (setIsDeleting false s))
  else
    SetTimeout
      (fun st =>
         match currentPhrase with
         | None => TypeError
         | Some p =>
             let len := Z.of_nat (String.length (displayText s)) in
             Updated
               (setDisplayText
                  (if isDeleting s then slice0 p (len - 1) else slice0 p (len + 1))
                  st)
         end)
      (if isDeleting s then deletingSpeed else typingSpeed).

(** Number of timers an effect run schedules. *)
Definition timers_scheduled (e : effect) : nat :=
  match e with
  | SetTimeout _ _ => 1
  | Immediate _ => 0
  end.

(** Time that passes before the state change of an effect run. *)
Definition wait (e : effect) : Z :=
  match e with
  | SetTimeout _ d => clamp_delay d
  | Immediate _ => 0%Z
  end.

(** One transition of the engine: the effect runs and, when it scheduled a
    timer, the timer fires.  Every state change re-renders and thereby
    cancels the pending timer through the cleanup, so a callback always
    fires in the state that scheduled it. *)
Definition step (s : State) : outcome :=
  match useTypingEffect s with
  | SetTimeout callback _ => callback s
  | Immediate s' => Updated s'
  end.

(** [n] transitions in a row; a thrown error ends the run. *)
Fixpoint run (n : nat) (s : State) : outcome :=
  match n with
  | O => Updated s
  | S k =>
      match step s with
      | Updated s' => run k s'
      | TypeError => TypeError
      end
  end.

(** The state rendered at time [t], for an engine that rendered [s] at time
    [clock].  [fuel] bounds the number of transitions taken; [None] means
    the bound was reached.  After an uncaught error in a timer callback the
    state stays as it was. *)
Fixpoint sample (fuel : nat) (clock : Z) (s : State) (t : Z) : option State :=
  match fuel with
  | O => None
  | S k =>
      let e := useTypingEffect s in
      if (clock + wait e <=? t)%Z then
        match step s with
        | Updated s' => sample k (clock + wait e)%Z s' t
        | TypeError => Some s
        end
      else Some s
  end.

(** The three logical states of the engine. *)
Inductive phase : Type := Typing | Pausing | Deleting.

Definition phase_of (s : State) : phase :=
  if isDeleting s then Deleting
  else if strict_eq (displayText s) (get phrases (phraseIndex s)) then Pausing
  else Typing.

(** States the engine can be in: the initial one and those a transition
    leads to. *)
Inductive reachable : State -> Prop :=
| reachable_initial : reachable initial
| reachable_step s s' : reachable s -> step s = Updated s' -> reachable s'.

(** The invariant of the data model: the index is in range and the display
    is a prefix of the phrase at that index. *)
Definition invariant (s : State) : Prop :=
  exists i p,
    phraseIndex s = Num i /\
    nth_error phrases i = Some p /\
    prefix (displayText s) p = true /\
    displayText s = substring 0 (String.length (displayText s)) p /\
    String.length (displayText s) <= String.length p.

(** The four transitions of the engine, as they apply to a state that
    satisfies the invariant. *)
Inductive transition (i : nat) (p : string) : State -> State -> Prop :=
| type_char k :
    k < String.length p ->
    transition i p (mkState (substring 0 k p) (Num i) false)
                   (mkState (substring 0 (S k) p) (Num i) false)
| pause_to_delete :
    transition i p (mkState p (Num i) false) (mkState p (Num i) true)
| delete_char k :
    k < String.length p ->
    transition i p (mkState (substring 0 (S k) p) (Num i) true)
                   (mkState (substring 0 k p) (Num i) true)
| advance_phrase :
    transition i p (mkState "" (Num i) true)
                   (mkState "" (Num ((i + 1) mod List.length phrases)) false).

(** A transition that moves on to the next phrase: the display is empty
    while deleting. *)
Definition is_advance (s : State) : bool :=
  isDeleting s && String.eqb (displayText s) "".

(** Number of phrase advances among the first [n] transitions from [s]. *)
Fixpoint advances (n : nat) (s : State) : nat :=
  match n with
  | O => 0
  | S k =>
      match step s with
      | Updated s' => (if is_advance s then 1 else 0) + advances k s'
      | TypeError => 0
      end
  end.

(** Transitions of one full cycle on phrase [p]: type every character,
    pause, delete every character, advance. *)
Definition cycle_steps (p : string) : nat :=
  String.length p + 1 + String.length p + 1.

(** Transitions of the first [N] cycles, starting at phrase 0. *)
Fixpoint cycles_steps (N : nat) : nat :=
  match N with
  | O => 0
  | S k => cycles_steps k + cycle_steps (nth (k mod List.length phrases) phrases "")
  end.

End Engine.

(** The scenario of the specification. *)
Definition scenario_phrases : list string := ["A"; "BB"].

Definition scenario_at (t : Z) : option State :=
  sample scenario_phrases 10 5 100 16 0 initial t.

End Typing.

(** ** The intersection-observer hook *)

Module Visibility.

(** An [IntersectionObserverEntry]; the callback reads [isIntersecting]
    only.  The host computes it against the observer's [threshold]. *)
Record Entry : Type := mkEntry { isIntersecting : bool }.

(** State of one [useScrollAnimation] instance: the [isVisible] cell, the
    [threshold] option the observer was created with, and whether the
    observer currently observes the target.  Every caller in the page uses
    the default threshold, so the effect, whose only dependency is
    [threshold], runs once per instance. *)
Record Tracker : Type := mkTracker {
  isVisible : bool;
  threshold : Q;
  observing : bool
}.

(** The default argument [threshold = 0.15]. *)
Definition default_threshold : Q := 15 # 100.

(** Mounting: [useState(false)], then the effect creates the observer and
    runs [if (ref.current) observer.observe(ref.current)]; [attached] tells
    whether [ref.current] is set. *)
Definition useScrollAnimation (thr : Q) (attached : bool) : Tracker :=
  {| isVisible := false; threshold := thr; observing := attached |}.

(** Host events: the observer callback is invoked with a non-empty array of
    entries, or the owning view is torn down. *)
Inductive event : Type :=
| Notify (entry : Entry) (rest : list Entry)
| Unmount.

(** Does the event make the callback run [setIsVisible(true)]?  A
    disconnected observer receives no callbacks; the callback destructures
    the first entry only. *)
Definition fires (tr : Tracker) (ev : event) : bool :=
  match ev with
  | Notify entry _ => observing tr && isIntersecting entry
  | Unmount => false
  end.

(** One event: [setIsVisible(true); observer.disconnect()] when the first
    entry intersects; the cleanup [observer.disconnect()] on teardown. *)
Definition handle (tr : Tracker) (ev : event) : Tracker :=
  match ev with
  | Notify entry _ =>
      if fires tr ev
      then {| isVisible := true; threshold := threshold tr; observing := false |}
      else tr
  | Unmount =>
      {| isVisible := isVisible tr; threshold := threshold tr; observing := false |}
  end.

Definition handle_all (tr : Tracker) (evs : list event) : Tracker :=
  fold_left handle evs tr.

(** How many times [setIsVisible(true)] runs along a sequence of events. *)
Fixpoint fire_count (tr : Tracker) (evs : list event) : nat :=
  match evs with
  | [] => 0
  | ev :: evs' => (if fires tr ev then 1 else 0) + fire_count (handle tr ev) evs'
  end.

(** A notification whose first entry intersects. *)
Definition intersecting (ev : event) : bool :=
  match ev with
  | Notify entry _ => isIntersecting entry
  | Unmount => false
  end.

Definition is_unmount (ev : event) : bool :=
  match ev with
  | Unmount => true
  | Notify _ _ => false
  end.

End Visibility.

(** ** Progress indicators *)

Module Progress.

Import Visibility.

(** State of one [AnimatedProgressBar]: its tracker, the [width] cell, the
    pending [setTimeout] (its due time), the time of the [setWidth] call and
    the number of [setWidth] calls so far.  Times are in milliseconds. *)
Record Bar : Type := mkBar {
  tracker : Tracker;
  width : Z;
  timer : option Z;
  width_set_at : option Z;
  setWidth_calls : nat
}.

(** Mounting: [useScrollAnimation()], [useState(0)]; the effect sees
    [isVisible = false] and does nothing. *)
Definition AnimatedProgressBar (attached : bool) : Bar :=
  {| tracker := useScrollAnimation default_threshold attached;
     width := 0; timer := None; width_set_at := None; setWidth_calls := 0 |}.

Section Bar.

(** The [value] prop. *)
Variable value : Z.

(** Timers due at [now] run: the callback is [setWidth(value)]. *)
Definition fire_due (now : Z) (b : Bar) : Bar :=
  match timer b with
  | Some due =>
      if (due <=? now)%Z then
        {| tracker := tracker b; width := value; timer := None;
           width_set_at := Some due; setWidth_calls := S (setWidth_calls b) |}
      else b
  | None => b
  end.

(** An observer notification at time [now].  The effect has dependencies
    [isVisible] and [value]; it runs again only when [isVisible] changed,
    and then schedules [setTimeout(() => setWidth(value), 200)]. *)
Definition notify (now : Z) (entry : Entry) (rest : list Entry) (b : Bar) : Bar :=
  let b := fire_due now b in
  let tr' := handle (tracker b) (Notify entry rest) in
  if negb (isVisible (tracker b)) && isVisible tr' then
    {| tracker := tr'; width := width b; timer := Some (now + 200)%Z;
       width_set_at := width_set_at b; setWidth_calls := setWidth_calls b |}
  else
    {| tracker := tr'; width := width b; timer := timer b;
       width_set_at := width_set_at b; setWidth_calls := setWidth_calls b |}.

(** A run of the host: notifications in time order, each with its time. *)
Definition timed : Type := (Z * (Entry * list Entry))%type.

Definition notify_all (b : Bar) (evs : list timed) : Bar :=
  fold_left (fun b ev => notify (fst ev) (fst (snd ev)) (snd (snd ev)) b) evs b.

(** The state at time [t], after the notifications [evs] (all at times up
    to [t]). *)
Definition at_time (b : Bar) (evs : list timed) (t : Z) : Bar :=
  fire_due t (notify_all b evs).

(** Duration of the style transition, [duration-1000]. *)
Definition duration : Z := 1000.

(** The width the host draws at time [t] (in percent): the classes
    [transition-all duration-1000 ease-out] make it move from the old
    value [0] to [width] along the easing curve [ease] and rest at [width]
    once the duration is over. *)
Definition drawn_width (ease : Q -> Q) (b : Bar) (t : Z) : Q :=
  match width_set_at b with
  | None => inject_Z (width b)
  | Some t0 =>
      if (t0 + duration <=? t)%Z then inject_Z (width b)
      else (ease (inject_Z (t - t0) / inject_Z duration) * inject_Z (width b))%Q
  end.

(** At any time a bar is either at rest at 0, [setWidth] not called yet, or
    at the target after the one call; a timer is pending only once the bar
    is visible. *)
Definition bar_ok (b : Bar) : Prop :=
  (width b = 0%Z /\ setWidth_calls b = 0 /\ width_set_at b = None /\
   (timer b = None \/ isVisible (tracker b) = true)) \/
  (width b = value /\ setWidth_calls b = 1 /\ timer b = None /\
   isVisible (tracker b) = true).

(** After the notification at [tv] that made the bar visible: the timer for
    [tv + 200] is pending, or it has fired. *)
Definition after_visible (tv : Z) (b : Bar) : Prop :=
  isVisible (tracker b) = true /\
  ((timer b = Some (tv + 200)%Z /\ width b = 0%Z /\
    width_set_at b = None /\ setWidth_calls b = 0) \/
   (timer b = None /\ width b = value /\
    width_set_at b = Some (tv + 200)%Z /\ setWidth_calls b = 1)).

End Bar.

(** The [value] props of the bars in the skills section. *)
Definition bar_targets : list Z := [85; 90; 92; 75; 78]%Z.

(** The [value] fields of [languagesData]. *)
Definition language_targets : list Z := [100; 90; 50]%Z.

(** [LanguageCircle]: the stroke offset computed at each render from the
    circumference ([2 * Math.PI * 45], taken as a parameter), with exact
    arithmetic. *)
Definition strokeDashoffset (circumference : Q) (value : Z) (isVisible : bool) : Q :=
  (circumference -
   (if isVisible then (inject_Z value / 100) * circumference else circumference))%Q.

(** The part of the ring that is drawn: [strokeDasharray] minus the
    offset. *)
Definition stroke_fill (circumference : Q) (value : Z) (isVisible : bool) : Q :=
  (circumference - strokeDashoffset circumference value isVisible)%Q.

End Progress.

(** ** The navigation bar *)

Module Nav.

(** The ids of [NAV_LINKS], in order. *)
Definition NAV_LINKS : list (string * string) :=
  [ ("home", "Home"); ("about", "About"); ("skills", "Skills");
    ("education", "Education"); ("experience", "Experience");
    ("services", "Services"); ("projects", "Projects");
    ("volunteer", "Volunteer"); ("languages", "Languages");
    ("contact", "Contact") ].

Definition sectionIds : list string := map fst NAV_LINKS.

(** What the handler reads from the host: [window.scrollY] and, through
    [document.getElementById(id)], the [offsetTop] of the element with that
    id ([None] when there is no such element).  Offsets are in pixels. *)
Record Window : Type := mkWindow {
  scrollY : Z;
  getElementById : string -> option Z
}.

(** The three [useState] cells of [Navbar]. *)
Record State : Type := mkState {
  scrolled : bool;
  mobileOpen : bool;
  activeSection : string
}.

(** [useState(false)], [useState(false)], [useState("home")].  The mount
    effect only registers [handleScroll] as scroll listener. *)
Definition Navbar : State :=
  {| scrolled := false; mobileOpen := false; activeSection := "home" |}.

Section Scroll.

Variable ids : list string.
Variable w : Window.

(** [for (let i = n - 1; i >= 0; i--)]: the id at which the loop breaks. *)
Fixpoint scan (n : nat) : option string :=
  match n with
  | O => None
  | S i =>
      match nth_error ids i with
      | Some id =>
          match getElementById w id with
          | Some offsetTop =>
              if (offsetTop <=? scrollY w + 80)%Z then Some id else scan i
          | None => scan i
          end
      | None => scan i
      end
  end.

Definition handleScroll_on (s : State) : State :=
  {| scrolled := (50 <? scrollY w)%Z;
     mobileOpen := mobileOpen s;
     activeSection :=
       match scan (List.length ids) with
       | Some id => id
       | None => activeSection s
       end |}.

End Scroll.

(** The listener of [Navbar]. *)
Definition handleScroll (w : Window) (s : State) : State :=
  handleScroll_on sectionIds w s.

(** [scrollTo(id)] closes the mobile menu. *)
Definition scrollTo (id : string) (s : State) : State :=
  {| scrolled := scrolled s; mobileOpen := false; activeSection := activeSection s |}.

(** The menu button: [setMobileOpen(!mobileOpen)]. *)
Definition toggleMobile (s : State) : State :=
  {| scrolled := scrolled s; mobileOpen := negb (mobileOpen s);
     activeSection := activeSection s |}.

(** A document made of the given sections, in order, with their top
    offsets. *)
Definition document_of (sections : list (string * Z)) (id : string) : option Z :=
  option_map snd (find (fun e => String.eqb (fst e) id) sections).

(** The section the specification calls active, in its words: among the
    sections present whose top offset is at most the scroll offset plus 80,
    the one appearing latest in the order of [ids]. *)
Definition latest_passed (ids : list string) (w : Window) : option string :=
  last (map Some
          (filter (fun id =>
                     match getElementById w id with
                     | Some top => (top <=? scrollY w + 80)%Z
                     | None => false
                     end) ids)) None.

(** The window of the specification's example: four sections with tops
    0, 800, 1600 and 2400, scrolled to 850. *)
Definition example_window : Window :=
  {| scrollY := 850;
     getElementById :=
       document_of [("home", 0); ("about", 800); ("skills", 1600);
                    ("education", 2400)]%Z |}.

End Nav.

(** ** Time spent by the typing engine *)

Module TypingClock.

Import JS Typing.

Section Clock.

Variable phrases : list string.
Variables typingSpeed deletingSpeed pauseDuration : Z.

(** Time that passes during the first [n] transitions from [s]. *)
Fixpoint elapsed (n : nat) (s : State) : Z :=
  match n with
  | O => 0
  | S k =>
      (wait (useTypingEffect phrases typingSpeed deletingSpeed pauseDuration s)
       + match step phrases typingSpeed deletingSpeed pauseDuration s with
         | Updated s' => elapsed k s'
         | TypeError => 0
         end)%Z
  end.

(** Transitions that suffice to reach time [t] from a state rendered at
    time [clock] when every delay is at least [m]: two per elapsed [m]
    (a timer and possibly a phrase advance), one more when the state is
    about to advance, one to stop. *)
Definition transitions_until (m clock t : Z) (s : State) : nat :=
  2 * Z.to_nat ((t - clock) / m) + (if is_advance s then 2 else 1).

End Clock.

End TypingClock.

(** ** The typing hook with its timers

    The host's table of pending timers is made explicit, with
    [setTimeout], [clearTimeout] and the cleanup [() => clearTimeout(timeout)]
    that React runs before each new effect run and on teardown. *)

Module Lifecycle.

Import JS Typing.

Record Timer : Type := mkTimer {
  timer_id : nat;
  delay : Z;
  callback : State -> outcome
}.

(** One mounted instance of the hook: the state cells, the value of
    [timeout] captured by the cleanup of the last effect run, the pending
    timers of the host, and the next timer id the host hands out. *)
Record Hook : Type := mkHook {
  state : State;
  timeout : option nat;
  timers : list Timer;
  next_id : nat;
  mounted : bool
}.

(** [clearTimeout(t)]: nothing happens for [undefined] or an id that is
    not pending. *)
Definition clearTimeout (t : option nat) (ts : list Timer) : list Timer :=
  match t with
  | Some i => filter (fun tm => negb (Nat.eqb (timer_id tm) i)) ts
  | None => ts
  end.

Definition pending (i : nat) (ts : list Timer) : option Timer :=
  find (fun tm => Nat.eqb (timer_id tm) i) ts.

Section Hook.

Variable phrases : list string.
Variables typingSpeed deletingSpeed pauseDuration : Z.

(** The effect runs for the rendered state, the cleanup of the previous run
    being done.  The [Immediate] branch sets state inside the effect:
    React renders again, runs the cleanup of this run ([timeout] is
    undefined) and the effect once more.  [depth] bounds such nested
    updates; [None] is React giving up. *)
Fixpoint commit (depth : nat) (h : Hook) : option Hook :=
  match depth with
  | O => None
  | S k =>
      match useTypingEffect phrases typingSpeed deletingSpeed pauseDuration (state h) with
      | SetTimeout cb d =>
          Some {| state := state h;
                  timeout := Some (next_id h);
                  timers := timers h ++ [mkTimer (next_id h) d cb];
                  next_id := S (next_id h);
                  mounted := mounted h |}
      | Immediate s' =>
          commit k {| state := s';
                      timeout := None;
                      timers := clearTimeout None (timers h);
                      next_id := next_id h;
                      mounted := mounted h |}
      end
  end.

(** React's limit on nested updates. *)
Definition update_limit : nat := 50.

(** Mounting: the three [useState] initial values, then the effect. *)
Definition mount (first_id : nat) : option Hook :=
  commit update_limit
    {| state := initial; timeout := None; timers := [];
       next_id := first_id; mounted := true |}.

(** The host runs the pending timer [i]: its callback calls a setter (or
    throws); the new state is rendered, the cleanup of the last effect run
    clears [timeout], and the effect runs again.  A timer that is not
    pending never runs. *)
Definition fire (i : nat) (h : Hook) : option Hook :=
  match pending i (timers h) with
  | None => Some h
  | Some tm =>
      let rest := filter (fun x => negb (Nat.eqb (timer_id x) i)) (timers h) in
      match callback tm (state h) with
      | TypeError =>
          Some {| state := state h; timeout := timeout h; timers := rest;
                  next_id := next_id h; mounted := mounted h |}
      | Updated s' =>
          commit update_limit
            {| state := s'; timeout := timeout h;
               timers := clearTimeout (timeout h) rest;
               next_id := next_id h; mounted := mounted h |}
      end
  end.

(** Teardown runs the cleanup of the last effect run. *)
Definition unmount (h : Hook) : Hook :=
  {| state := state h; timeout := timeout h;
     timers := clearTimeout (timeout h) (timers h);
     next_id := next_id h; mounted := false |}.

Inductive event : Type :=
| Fire (i : nat)
| Unmount.

Definition handle (h : Hook) (ev : event) : option Hook :=
  match ev with
  | Fire i => fire i h
  | Unmount => Some (unmount h)
  end.

Fixpoint handle_all (h : Hook) (evs : list event) : option Hook :=
  match evs with
  | [] => Some h
  | ev :: evs' =>
      match handle h ev with
      | Some h' => handle_all h' evs'
      | None => None
      end
  end.

(** Hooks that arise: mounted with some first timer id, then any events. *)
Definition arises (h : Hook) : Prop :=
  exists first_id h0 evs, mount first_id = Some h0 /\ handle_all h0 evs = Some h.

(** At most the timer held in [timeout] is pending, and none after
    teardown. *)
Definition timers_ok (h : Hook) : Prop :=
  (timers h = [] \/
   exists tm, timers h = [tm] /\ timeout h = Some (timer_id tm) /\ mounted h = true).

(** The one pending timer is the one the effect scheduled for the rendered
    state. *)
Definition scheduled (h : Hook) : Prop :=
  exists i cb d,
    timers h = [mkTimer i d cb] /\ timeout h = Some i /\
    useTypingEffect phrases typingSpeed deletingSpeed pauseDuration (state h)
    = SetTimeout cb d.

(** A hook in step with the engine: its state is a reachable one, while
    mounted the timer for that state is pending, and none after teardown. *)
Definition in_step (h : Hook) : Prop :=
  reachable phrases typingSpeed deletingSpeed pauseDuration (state h) /\
  (mounted h = true -> scheduled h) /\
  (mounted h = false -> timers h = []).

(** The state an instance shows once the effects of a transition have
    settled: a phrase advance follows at once the transition that emptied
    the display. *)
Definition settled (s : State) : outcome :=
  if is_advance s then step phrases typingSpeed deletingSpeed pauseDuration s
  else Updated s.

End Hook.

End Lifecycle.

(** ** Teardown of a progress bar *)

Module ProgressTeardown.

Import Visibility Progress.

(** Teardown at time [now]: timers due by then have run; the cleanup of the
    bar's effect clears its timer and the cleanup of the tracker's effect
    disconnects the observer. *)
Definition unmount (value : Z) (now : Z) (b : Bar) : Bar :=
  let b := fire_due value now b in
  {| tracker := handle (tracker b) Unmount;
     width := width b;
     timer := None;
     width_set_at := width_set_at b;
     setWidth_calls := setWidth_calls b |}.

End ProgressTeardown.

(** ** The circular indicator *)

Module Ring.

Import Visibility Progress.

(** One [LanguageCircle]: it has no state of its own beside its tracker;
    [shown_at] records the time of the render at which [isVisible] became
    true, where the style transition of the stroke starts. *)
Record Circle : Type := mkCircle {
  ring_tracker : Tracker;
  shown_at : option Z
}.

(** Mounting: [useScrollAnimation()]. *)
Definition LanguageCircle (attached : bool) : Circle :=
  {| ring_tracker := useScrollAnimation default_threshold attached;
     shown_at := None |}.

(** An observer notification at time [now]; the component renders again
    when [isVisible] changed. *)
Definition notify (now : Z) (entry : Entry) (rest : list Entry) (r : Circle) : Circle :=
  let tr' := handle (ring_tracker r) (Notify entry rest) in
  {| ring_tracker := tr';
     shown_at :=
       if negb (isVisible (ring_tracker r)) && isVisible tr' then Some now
       else shown_at r |}.

Definition notify_all (r : Circle) (evs : list timed) : Circle :=
  fold_left (fun r ev => notify (fst ev) (fst (snd ev)) (snd (snd ev)) r) evs r.

(** The [strokeDashoffset] prop of the current render. *)
Definition offset (circumference : Q) (value : Z) (r : Circle) : Q :=
  strokeDashoffset circumference value (isVisible (ring_tracker r)).

(** Duration of [transition: stroke-dashoffset 1.5s ease-out]. *)
Definition duration : Z := 1500.

(** The offset the host draws at time [t]: it moves from the offset of the
    hidden ring to the one of the current render along the easing curve
    [ease] and rests there once the duration is over. *)
Definition drawn_offset (ease : Q -> Q) (circumference : Q) (value : Z)
    (r : Circle) (t : Z) : Q :=
  match shown_at r with
  | None => offset circumference value r
  | Some t0 =>
      if (t0 + duration <=? t)%Z then offset circumference value r
      else
        let hidden := strokeDashoffset circumference value false in
        (hidden
         + ease (inject_Z (t - t0) / inject_Z duration)
           * (offset circumference value r - hidden))%Q
  end.

End Ring.

(** ** Events of the navigation bar *)

Module NavEvents.

Import Nav.

(** What happens to a mounted [Navbar]: a scroll event in some window, a
    click on a link (or the logo) calling [scrollTo], a click on the menu
    button. *)
Inductive event : Type :=
| Scroll (w : Window)
| Click (id : string)
| ToggleMenu.

Definition handle (s : State) (ev : event) : State :=
  match ev with
  | Scroll w => handleScroll w s
  | Click id => scrollTo id s
  | ToggleMenu => toggleMobile s
  end.

Definition handle_all (s : State) (evs : list event) : State :=
  fold_left handle evs s.

(** The links drawn as active: those with [activeSection === link.id]. *)
Definition highlighted (s : State) : list (string * string) :=
  filter (fun link => String.eqb (activeSection s) (fst link)) NAV_LINKS.

(** Is the section [id] present with its top at most [scrollY + 80]? *)
Definition passed (w : Window) (id : string) : bool :=
  match getElementById w id with
  | Some offsetTop => (offsetTop <=? scrollY w + 80)%Z
  | None => false
  end.

(** The tops of the sections of [ids] that are present, in order. *)
Definition tops (ids : list string) (w : Window) : list Z :=
  flat_map (fun id =>
              match getElementById w id with
              | Some offsetTop => [offsetTop]
              | None => []
              end) ids.

(** Does a list of tops never decrease? *)
Fixpoint nondecreasing (l : list Z) : bool :=
  match l with
  | a :: (b :: _) as rest => (a <=? b)%Z && nondecreasing rest
  | _ => true
  end.


End NavEvents.

(** * Properties *)

(** ** Facts on [substring] and [prefix] used by the engine *)

Section StringFacts.

Lemma substring0_nil (s : string) : substring 0 0 s = "".
Proof. destruct s; reflexivity. Qed.

Lemma substring0_length (s : string) :
  forall n, String.length (substring 0 n s) = Nat.min n (String.length s).
Proof.
  induction s as [|c s IH]; intros [|n]; simpl; auto.
Qed.

Lemma substring0_full (s : string) :
  forall n, String.length s <= n -> substring 0 n s = s.
Proof.
  induction s as [|c s IH]; intros [|n] H; simpl in *; auto; try lia.
  f_equal. apply IH. lia.
Qed.

Lemma substring0_prefix (s : string) :
  forall n, prefix (substring 0 n s) s = true.
Proof.
  induction s as [|c s IH]; intros [|n]; simpl; auto.
  destruct (ascii_dec c c); [apply IH | congruence].
Qed.

Lemma prefix_substring (d : string) :
  forall p, prefix d p = true -> d = substring 0 (String.length d) p.
Proof.
  induction d as [|c d IH]; intros [|c' p] H; simpl in *; try discriminate; auto.
  destruct (ascii_dec c c'); [subst | discriminate].
  f_equal. apply IH, H.
Qed.

Lemma prefix_length (d : string) :
  forall p, prefix d p = true -> String.length d <= String.length p.
Proof.
  induction d as [|c d IH]; intros [|c' p] H; simpl in *; try discriminate; try lia.
  destruct (ascii_dec c c'); [| discriminate].
  apply IH in H. lia.
Qed.

Lemma prefix_full (d p : string) :
  prefix d p = true -> String.length d = String.length p -> d = p.
Proof.
  intros H L. rewrite (prefix_substring d p H), L.
  apply substring0_full. lia.
Qed.

Lemma prefix_refl (p : string) : prefix p p = true.
Proof.
  induction p as [|c p IH]; simpl; auto.
  destruct (ascii_dec c c); [assumption | congruence].
Qed.

Lemma prefix_empty (p : string) : prefix "" p = true.
Proof. destruct p; reflexivity. Qed.

Lemma length_zero_empty (s : string) : String.length s = 0 -> s = "".
Proof. destruct s; simpl; [reflexivity | discriminate]. Qed.

End StringFacts.

(** ** The typing engine *)

Section TypingEngine.

Import JS Typing.

Variable phrases : list string.
Variables typingSpeed deletingSpeed pauseDuration : Z.

Local Abbreviation effect_of := (useTypingEffect phrases typingSpeed deletingSpeed pauseDuration).
Local Abbreviation step := (Typing.step phrases typingSpeed deletingSpeed pauseDuration).
Local Abbreviation run := (Typing.run phrases typingSpeed deletingSpeed pauseDuration).
Local Abbreviation reachable := (Typing.reachable phrases typingSpeed deletingSpeed pauseDuration).
Local Abbreviation invariant := (Typing.invariant phrases).
Local Abbreviation advances := (Typing.advances phrases typingSpeed deletingSpeed pauseDuration).
Local Abbreviation transition := (Typing.transition phrases).

Lemma substring0_min (p : string) :
  forall n, substring 0 (Nat.min n (String.length p)) p = substring 0 n p.
Proof.
  induction p as [|c p IH]; intros [|n]; simpl; auto.
  f_equal. apply IH.
Qed.

Lemma slice0_of_nat (p : string) (n : nat) :
  slice0 p (Z.of_nat n) = substring 0 n p.
Proof.
  unfold slice0.
  destruct (Z.ltb_spec (Z.of_nat n) 0); [lia|].
  rewrite <- Nat2Z.inj_min, Nat2Z.id. apply substring0_min.
Qed.

Lemma eqb_substring_short (p : string) (k : nat) :
  k < String.length p -> String.eqb (substring 0 k p) p = false.
Proof.
  intros H. apply String.eqb_neq. intros E.
  apply (f_equal String.length) in E.
  rewrite substring0_length in E. lia.
Qed.

Lemma eqb_substring_nonempty (p : string) (k : nat) :
  k < String.length p -> String.eqb (substring 0 (S k) p) "" = false.
Proof.
  intros H. apply String.eqb_neq. intros E.
  apply (f_equal String.length) in E.
  rewrite substring0_length in E.
  change (String.length "") with 0 in E. lia.
Qed.

Section OnePhrase.

Variables (i : nat) (p : string).
Hypothesis Hp : nth_error phrases i = Some p.

Lemma effect_typing (k : nat) :
  k < String.length p ->
  exists cb,
    effect_of (mkState (substring 0 k p) (Num i) false) = SetTimeout cb typingSpeed /\
    cb (mkState (substring 0 k p) (Num i) false)
    = Updated (mkState (substring 0 (S k) p) (Num i) false).
Proof.
  intros H. unfold useTypingEffect. simpl. rewrite Hp. simpl.
  rewrite (eqb_substring_short p k H).
  eexists. split; [reflexivity|]. simpl.
  unfold setDisplayText. simpl. do 2 f_equal.
  rewrite substring0_length, Nat.min_l by lia.
  replace (Z.of_nat k + 1)%Z with (Z.of_nat (S k)) by lia.
  apply slice0_of_nat.
Qed.

Lemma effect_pause :
  exists cb,
    effect_of (mkState p (Num i) false) = SetTimeout cb pauseDuration /\
    cb (mkState p (Num i) false) = Updated (mkState p (Num i) true).
Proof.
  unfold useTypingEffect. simpl. rewrite Hp. simpl. rewrite String.eqb_refl.
  eexists. split; reflexivity.
Qed.

Lemma effect_delete (k : nat) :
  k < String.length p ->
  exists cb,
    effect_of (mkState (substring 0 (S k) p) (Num i) true) = SetTimeout cb deletingSpeed /\
    cb (mkState (substring 0 (S k) p) (Num i) true)
    = Updated (mkState (substring 0 k p) (Num i) true).
Proof.
  intros H. unfold useTypingEffect. simpl. rewrite Hp.
  rewrite (eqb_substring_nonempty p k H).
  eexists. split; [reflexivity|]. simpl.
  unfold setDisplayText. simpl. do 2 f_equal.
  rewrite substring0_length, Nat.min_l by lia.
  replace (Z.of_nat (S k) - 1)%Z with (Z.of_nat k) by lia.
  apply slice0_of_nat.
Qed.

Lemma effect_advance :
  effect_of (mkState "" (Num i) true)
  = Immediate (mkState "" (succ_mod (Num i) (List.length phrases)) false).
Proof. reflexivity. Qed.

Lemma step_typing (k : nat) :
  k < String.length p ->
  step (mkState (substring 0 k p) (Num i) false)
  = Updated (mkState (substring 0 (S k) p) (Num i) false).
Proof.
  intros H. destruct (effect_typing k H) as (cb & E & C).
  unfold Typing.step. rewrite E. exact C.
Qed.

Lemma step_pause :
  step (mkState p (Num i) false) = Updated (mkState p (Num i) true).
Proof.
  destruct effect_pause as (cb & E & C).
  unfold Typing.step. rewrite E. exact C.
Qed.

Lemma step_delete (k : nat) :
  k < String.length p ->
  step (mkState (substring 0 (S k) p) (Num i) true)
  = Updated (mkState (substring 0 k p) (Num i) true).
Proof.
  intros H. destruct (effect_delete k H) as (cb & E & C).
  unfold Typing.step. rewrite E. exact C.
Qed.

Lemma step_advance :
  step (mkState "" (Num i) true)
  = Updated (mkState "" (succ_mod (Num i) (List.length phrases)) false).
Proof. reflexivity. Qed.

Lemma invariant_substring (b : bool) (k : nat) :
  k <= String.length p -> invariant (mkState (substring 0 k p) (Num i) b).
Proof.
  intros H. exists i, p. simpl.
  rewrite substring0_length, Nat.min_l by exact H.
  repeat split; auto using substring0_prefix.
Qed.

Lemma invariant_full (b : bool) : invariant (mkState p (Num i) b).
Proof.
  rewrite <- (substring0_full p (String.length p)) at 1 by lia.
  apply invariant_substring. lia.
Qed.

Lemma invariant_empty (b : bool) : invariant (mkState "" (Num i) b).
Proof.
  rewrite <- (substring0_nil p). apply invariant_substring. lia.
Qed.

End OnePhrase.

Lemma succ_mod_in_range (i : nat) (p : string) :
  nth_error phrases i = Some p ->
  succ_mod (Num i) (List.length phrases) = Num ((i + 1) mod List.length phrases) /\
  exists q, nth_error phrases ((i + 1) mod List.length phrases) = Some q.
Proof.
  intros Hp.
  assert (Hlt : i < List.length phrases) by (apply nth_error_Some; congruence).
  destruct (List.length phrases) as [|n] eqn:E; [lia|].
  split; [reflexivity|].
  destruct (nth_error phrases ((i + 1) mod S n)) as [q|] eqn:Q; [eauto|].
  apply nth_error_None in Q.
  pose proof (Nat.mod_upper_bound (i + 1) (S n)). lia.
Qed.

Lemma step_cases (s : State) :
  invariant s ->
  exists i p s',
    phraseIndex s = Num i /\ nth_error phrases i = Some p /\
    step s = Updated s' /\ transition i p s s'.
Proof.
  intros (i & p & Hi & Hp & Hpre & Heq & Hlen).
  destruct s as [d idx del]. simpl in *. subst idx.
  exists i, p.
  destruct del.
  - destruct (String.length d) as [|k] eqn:L.
    + apply length_zero_empty in L. subst d.
      destruct (succ_mod_in_range i p Hp) as [E _].
      exists (mkState "" (Num ((i + 1) mod List.length phrases)) false).
      split; [reflexivity|]. split; [assumption|]. split.
      * rewrite (step_advance i), E. reflexivity.
      * constructor.
    + rewrite Heq.
      exists (mkState (substring 0 k p) (Num i) true).
      split; [reflexivity|]. split; [assumption|]. split.
      * apply (step_delete i p Hp). lia.
      * constructor. lia.
  - destruct (Nat.eq_dec (String.length d) (String.length p)) as [E|N].
    + apply (prefix_full d p Hpre) in E. subst d.
      exists (mkState p (Num i) true).
      split; [reflexivity|]. split; [assumption|]. split.
      * apply (step_pause i p Hp).
      * constructor.
    + rewrite Heq.
      exists (mkState (substring 0 (S (String.length d)) p) (Num i) false).
      split; [reflexivity|]. split; [assumption|]. split.
      * apply (step_typing i p Hp). lia.
      * constructor. lia.
Qed.

Lemma transition_invariant (i : nat) (p : string) (s s' : State) :
  nth_error phrases i = Some p -> transition i p s s' -> invariant s'.
Proof.
  intros Hp T. destruct T.
  - apply invariant_substring; [assumption | lia].
  - apply invariant_full; assumption.
  - apply invariant_substring; [assumption | lia].
  - destruct (succ_mod_in_range i p Hp) as [_ [q Hq]].
    apply (invariant_empty _ q Hq).
Qed.

Lemma invariant_initial : phrases <> [] -> invariant initial.
Proof.
  intros H. destruct phrases as [|p0 rest] eqn:E; [congruence|].
  rewrite <- E. apply (invariant_empty 0 p0). rewrite E. reflexivity.
Qed.

Lemma invariant_step (s : State) :
  invariant s -> exists s', step s = Updated s' /\ invariant s'.
Proof.
  intros H. destruct (step_cases s H) as (i & p & s' & _ & Hp & St & T).
  exists s'. split; [assumption|]. eapply transition_invariant; eassumption.
Qed.

Lemma reachable_invariant (s : State) :
  phrases <> [] -> reachable s -> invariant s.
Proof.
  intros Hne R. induction R as [|s s' R IH St].
  - apply invariant_initial, Hne.
  - destruct (invariant_step s IH) as (s2 & St2 & I2). congruence.
Qed.

(** C1. For a phrase list of length at least 1, in every reachable state of
    the typing engine the phrase index is in range and the displayed string
    is a prefix of the phrase at that index, of length between 0 and the
    length of that phrase; every transition of the engine out of a state
    with this property succeeds and leads to a state with this property
    (typing step, pause-to-delete, delete step and phrase advance alike). *)
Theorem typing_display_prefix_invariant :
  phrases <> [] ->
  (forall s, reachable s ->
     exists i p,
       phraseIndex s = Num i /\ nth_error phrases i = Some p /\
       prefix (displayText s) p = true /\
       displayText s = substring 0 (String.length (displayText s)) p /\
       0 <= String.length (displayText s) <= String.length p) /\
  (forall s, invariant s ->
     exists i p s',
       phraseIndex s = Num i /\ nth_error phrases i = Some p /\
       step s = Updated s' /\ transition i p s s' /\ invariant s').
Proof.
  intros Hne. split.
  - intros s R.
    destruct (reachable_invariant s Hne R) as (i & p & Hi & Hp & Hpre & Heq & Hlen).
    exists i, p. repeat split; auto. lia.
  - intros s I.
    destruct (step_cases s I) as (i & p & s' & Hi & Hp & St & T).
    exists i, p, s'. repeat split; auto.
    eapply transition_invariant; eassumption.
Qed.

Lemma reachable_transition (s s' : State) :
  phrases <> [] -> reachable s -> step s = Updated s' ->
  exists i p,
    phraseIndex s = Num i /\ nth_error phrases i = Some p /\ transition i p s s'.
Proof.
  intros Hne R St.
  destruct (step_cases s (reachable_invariant s Hne R)) as (i & p & s2 & Hi & Hp & St2 & T).
  exists i, p. replace s' with s2 by congruence. auto.
Qed.

(** C6. For a non-empty phrase list, a step of the engine taken in the
    Typing phase lengthens the display by exactly one character and a step
    that stays in the Deleting phase shortens it by exactly one; the engine
    passes from not deleting to deleting only when the display equals the
    whole current phrase, and from deleting to not deleting only when the
    display is the empty string (the display is unchanged by both). *)
Theorem typing_steps_by_one_character (s s' : State) :
  phrases <> [] -> reachable s -> step s = Updated s' ->
  (phase_of phrases s = Typing ->
     String.length (displayText s') = String.length (displayText s) + 1 /\
     isDeleting s' = false) /\
  (phase_of phrases s = Deleting -> displayText s <> "" ->
     String.length (displayText s') + 1 = String.length (displayText s) /\
     isDeleting s' = true) /\
  (isDeleting s = false -> isDeleting s' = false ->
     String.length (displayText s') = String.length (displayText s) + 1) /\
  (isDeleting s = true -> isDeleting s' = true ->
     String.length (displayText s') + 1 = String.length (displayText s)) /\
  (isDeleting s = false -> isDeleting s' = true ->
     get phrases (phraseIndex s) = Some (displayText s) /\
     phase_of phrases s = Pausing /\
     displayText s' = displayText s) /\
  (isDeleting s = true -> isDeleting s' = false ->
     displayText s = "" /\ displayText s' = "").
Proof.
  intros Hne R St.
  destruct (reachable_transition s s' Hne R St) as (i & p & _ & Hp & T).
  destruct T as [k Hk| |k Hk|]; unfold phase_of; simpl; rewrite ?Hp; simpl;
    rewrite ?substring0_length, ?String.eqb_refl, ?(eqb_substring_short p k Hk);
    repeat split; intros; try discriminate; try congruence; try lia.
Qed.

(** C9, as the code has it. For a non-empty phrase list and every reachable
    state: unless the display is empty while deleting, the effect schedules
    exactly one timer, with the delay of the current phase, whose callback
    performs the next state change; when the display is empty while
    deleting, the effect schedules no timer and itself clears the deleting
    flag and advances the phrase index. *)
Theorem typing_timers_per_transition (s : State) :
  phrases <> [] -> reachable s ->
  (is_advance s = false ->
     exists callback s',
       effect_of s
       = SetTimeout callback
           (match phase_of phrases s with
            | Typing => typingSpeed
            | Pausing => pauseDuration
            | Deleting => deletingSpeed
            end) /\
       timers_scheduled (effect_of s) = 1 /\
       callback s = Updated s' /\ step s = Updated s' /\ s' <> s) /\
  (is_advance s = true ->
     timers_scheduled (effect_of s) = 0 /\
     effect_of s
     = Immediate
         (mkState "" (succ_mod (phraseIndex s) (List.length phrases)) false)).
Proof.
  intros Hne R.
  destruct (step_cases s (reachable_invariant s Hne R)) as (i & p & s' & _ & Hp & St & T).
  destruct T as [k Hk| |k Hk|]; unfold is_advance, phase_of; simpl; rewrite ?Hp; simpl.
  - rewrite (eqb_substring_short p k Hk).
    split; [intros _ | discriminate].
    destruct (effect_typing i p Hp k Hk) as (cb & E & C).
    exists cb. eexists. rewrite E. repeat split; eauto.
    intros X. apply (f_equal (fun x => String.length (displayText x))) in X.
    simpl in X. rewrite !substring0_length in X. lia.
  - rewrite String.eqb_refl.
    split; [intros _ | discriminate].
    destruct (effect_pause i p Hp) as (cb & E & C).
    exists cb. eexists. rewrite E. repeat split; eauto. discriminate.
  - rewrite (eqb_substring_nonempty p k Hk).
    split; [intros _ | discriminate].
    destruct (effect_delete i p Hp k Hk) as (cb & E & C).
    exists cb. eexists. rewrite E. repeat split; eauto.
    intros X. apply (f_equal (fun x => String.length (displayText x))) in X.
    simpl in X. rewrite !substring0_length in X. lia.
  - split; [discriminate | intros _]. split; reflexivity.
Qed.

(** *** Full cycles *)

Lemma run_add (a b : nat) :
  forall s,
    run (a + b) s
    = match run a s with
      | Updated s' => run b s'
      | TypeError => TypeError
      end.
Proof.
  induction a as [|a IH]; intros s; simpl; [reflexivity|].
  destruct (step s); [apply IH | reflexivity].
Qed.

Lemma advances_add (a b : nat) :
  forall s,
    advances (a + b) s
    = advances a s
      + match run a s with
        | Updated s' => advances b s'
        | TypeError => 0
        end.
Proof.
  induction a as [|a IH]; intros s; simpl; [reflexivity|].
  destruct (step s); [rewrite IH; lia | reflexivity].
Qed.

Lemma run_one (s : State) : run 1 s = step s.
Proof. simpl. destruct (step s); reflexivity. Qed.

Lemma advances_one (s : State) :
  advances 1 s
  = match step s with
    | Updated _ => if is_advance s then 1 else 0
    | TypeError => 0
    end.
Proof. simpl. destruct (step s); [lia | reflexivity]. Qed.

Section OneCycle.

Variables (i : nat) (p : string).
Hypothesis Hp : nth_error phrases i = Some p.

Lemma run_typing (n : nat) :
  forall k, n + k = String.length p ->
    run n (mkState (substring 0 k p) (Num i) false) = Updated (mkState p (Num i) false) /\
    advances n (mkState (substring 0 k p) (Num i) false) = 0.
Proof.
  induction n as [|n IH]; intros k H; simpl.
  - rewrite substring0_full by lia. auto.
  - rewrite (step_typing i p Hp) by lia.
    destruct (IH (S k)) as [R A]; [lia|]. rewrite R, A. auto.
Qed.

Lemma run_deleting (k : nat) :
  k <= String.length p ->
  run k (mkState (substring 0 k p) (Num i) true) = Updated (mkState "" (Num i) true) /\
  advances k (mkState (substring 0 k p) (Num i) true) = 0.
Proof.
  induction k as [|k IH]; intros H.
  - simpl. rewrite substring0_nil. auto.
  - destruct IH as [R A]; [lia|].
    cbn [Typing.run Typing.advances].
    rewrite (step_delete i p Hp) by lia.
    unfold is_advance. cbn [isDeleting displayText andb].
    rewrite (eqb_substring_nonempty p k) by lia.
    rewrite R, A. auto.
Qed.

Lemma run_cycle :
  run (cycle_steps p) (mkState "" (Num i) false)
  = Updated (mkState "" (Num ((i + 1) mod List.length phrases)) false) /\
  advances (cycle_steps p) (mkState "" (Num i) false) = 1.
Proof.
  unfold cycle_steps.
  destruct (run_typing (String.length p) 0) as [R1 A1]; [lia|].
  rewrite substring0_nil in R1, A1.
  destruct (run_deleting (String.length p)) as [R2 A2]; [lia|].
  rewrite substring0_full in R2, A2 by lia.
  destruct (succ_mod_in_range i p Hp) as [E _].
  rewrite !advances_add, !run_add, R1, A1, !run_one, !advances_one.
  rewrite (step_pause i p Hp), R2, A2.
  rewrite run_one, advances_one, (step_advance i), E.
  split; reflexivity.
Qed.

End OneCycle.

Lemma run_cycles (N : nat) :
  phrases <> [] ->
  run (cycles_steps phrases N) initial
  = Updated (mkState "" (Num (N mod List.length phrases)) false) /\
  advances (cycles_steps phrases N) initial = N.
Proof.
  intros Hne.
  assert (Hlen : List.length phrases <> 0) by (destruct phrases; simpl; congruence).
  induction N as [|N [R A]]; simpl.
  - rewrite Nat.Div0.mod_0_l. auto.
  - rewrite run_add, advances_add, R, A.
    pose proof (Nat.mod_upper_bound N _ Hlen) as Hlt.
    destruct (run_cycle (N mod List.length phrases)
                (nth (N mod List.length phrases) phrases "")) as [R1 A1].
    { apply nth_error_nth'. exact Hlt. }
    rewrite R1, A1. split; [|lia].
    rewrite Nat.Div0.add_mod_idemp_l.
    replace (N + 1) with (S N) by lia. reflexivity.
Qed.

(** C5. For a non-empty phrase list and every N, after the transitions of N
    full type/pause/delete cycles from the initial state the engine has
    advanced N times, shows the empty string in the Typing direction and its
    phrase index is N mod len(phrases); the index moves by exactly one
    modulo the list length at each transition taken with an empty display
    while deleting, and at no other transition. *)
Theorem typing_index_after_cycles :
  phrases <> [] ->
  (forall N,
     run (cycles_steps phrases N) initial
     = Updated (mkState "" (Num (N mod List.length phrases)) false) /\
     advances (cycles_steps phrases N) initial = N) /\
  (forall s s', reachable s -> step s = Updated s' ->
     exists i,
       phraseIndex s = Num i /\
       phraseIndex s'
       = Num (if is_advance s then (i + 1) mod List.length phrases else i)).
Proof.
  intros Hne. split.
  - intros N. apply run_cycles, Hne.
  - intros s s' R St.
    destruct (reachable_transition s s' Hne R St) as (i & p & _ & Hp & T).
    exists i.
    destruct T as [k Hk| |k Hk|]; unfold is_advance; simpl;
      rewrite ?(eqb_substring_nonempty p k Hk); auto.
Qed.

End TypingEngine.

(** ** The typing engine on concrete phrase lists *)

Section TypingScenario.

Import JS Typing.

Lemma sample_more_fuel phrases ts ds pd (t : Z) (k : nat) :
  forall fuel clock s r,
    sample phrases ts ds pd fuel clock s t = Some r ->
    sample phrases ts ds pd (fuel + k) clock s t = Some r.
Proof.
  induction fuel as [|fuel IH]; intros clock s r H; simpl in *; [discriminate|].
  destruct (_ <=? t)%Z; [|assumption].
  destruct (step phrases ts ds pd s); [apply IH|]; assumption.
Qed.

Lemma sample_fire phrases ts ds pd fuel clock s t d s' clock' :
  wait (useTypingEffect phrases ts ds pd s) = d ->
  step phrases ts ds pd s = Updated s' ->
  (clock + d)%Z = clock' ->
  (clock' <= t)%Z ->
  sample phrases ts ds pd (S fuel) clock s t = sample phrases ts ds pd fuel clock' s' t.
Proof.
  intros W St C H. simpl. rewrite W, St, C.
  destruct (Z.leb_spec clock' t); [reflexivity | lia].
Qed.

Lemma sample_rest phrases ts ds pd fuel clock s t d :
  wait (useTypingEffect phrases ts ds pd s) = d ->
  (t < clock + d)%Z ->
  sample phrases ts ds pd (S fuel) clock s t = Some s.
Proof.
  intros W H. simpl. rewrite W.
  destruct (Z.leb_spec (clock + d) t); [lia | reflexivity].
Qed.

(** Takes the next transition of a concrete engine when its time has come,
    and stops otherwise. *)
Ltac sample_next :=
  match goal with
  | |- sample ?ph ?ts ?ds ?pd (S ?k) ?c ?s ?t = _ =>
      let d := eval vm_compute in (wait (useTypingEffect ph ts ds pd s)) in
      let o := eval vm_compute in (step ph ts ds pd s) in
      let c' := eval vm_compute in (c + d)%Z in
      match o with
      | Updated ?s' =>
          first
            [ rewrite (sample_fire ph ts ds pd k c s t d s' c' eq_refl eq_refl eq_refl)
                by lia
            | rewrite (sample_rest ph ts ds pd k c s t d eq_refl) by lia ]
      end
  end.

Ltac sample_until :=
  unfold scenario_at, scenario_phrases; repeat sample_next; reflexivity.

(** C3. With phrases ["A"; "BB"], typing speed 10, deleting speed 5 and
    pause 100, started at time 0 with an empty display and not deleting:
    the display is "A" from time 10 on and stays "A" through the pause
    (times 10 to 110, and until the delete step at 115); at time 115 the
    display is empty and the phrase index is 1; at time 125 the display is
    "B"; at time 135 it is "BB". *)
Theorem typing_scenario_trace :
  (forall t, (0 <= t < 10)%Z ->
     scenario_at t = Some (mkState "" (Num 0) false)) /\
  (forall t, (10 <= t < 110)%Z ->
     scenario_at t = Some (mkState "A" (Num 0) false)) /\
  (forall t, (110 <= t < 115)%Z ->
     scenario_at t = Some (mkState "A" (Num 0) true)) /\
  (forall t, (115 <= t < 125)%Z ->
     scenario_at t = Some (mkState "" (Num 1) false)) /\
  (forall t, (125 <= t < 135)%Z ->
     scenario_at t = Some (mkState "B" (Num 1) false)) /\
  (forall t, (135 <= t < 235)%Z ->
     scenario_at t = Some (mkState "BB" (Num 1) false)).
Proof.
  repeat split; intros t Ht; sample_until.
Qed.

Lemma typing_scenario_trace_witness :
  scenario_at 50 = Some (mkState "A" (Num 0) false) /\
  scenario_at 115 = Some (mkState "" (Num 1) false).
Proof.
  split.
  - apply (proj1 (proj2 typing_scenario_trace) 50%Z). lia.
  - apply (proj1 (proj2 (proj2 (proj2 typing_scenario_trace))) 115%Z). lia.
Defined.

(** C10. With the empty phrase list the engine cannot take its first step:
    [phrases[0]] is undefined, the effect still schedules the typing timer,
    and its callback throws on [.slice] before any setter is called, so no
    run of one or more steps yields a state and the initial state is the
    only reachable one.  The first step succeeds exactly for the non-empty
    phrase lists. *)
Theorem typing_empty_list_faults (ts ds pd : Z) :
  get (@nil string) (phraseIndex initial) = None /\
  (exists callback,
     useTypingEffect [] ts ds pd initial = SetTimeout callback ts /\
     callback initial = TypeError) /\
  step [] ts ds pd initial = TypeError /\
  (forall n, run [] ts ds pd (S n) initial = TypeError) /\
  (forall s, reachable [] ts ds pd s -> s = initial) /\
  (forall phrases,
     (exists s', step phrases ts ds pd initial = Updated s') <-> phrases <> []).
Proof.
  split; [reflexivity|].
  split; [eexists; split; reflexivity|].
  split; [reflexivity|].
  split; [intros n; reflexivity|].
  split.
  - intros s R. induction R as [|s s' R IH St]; [reflexivity|].
    subst s. discriminate St.
  - intros phrases. split.
    + intros [s' St] E. subst phrases. discriminate St.
    + intros Hne.
      destruct (invariant_step phrases ts ds pd initial (invariant_initial phrases Hne))
        as (s' & St & _).
      eauto.
Qed.

(** The state in which the display has just been emptied, for the one-phrase
    list ["A"]. *)
Lemma reachable_emptied :
  reachable ["A"] 80 50 1800 (mkState "" (Num 0) true).
Proof.
  apply (reachable_step _ _ _ _ (mkState "A" (Num 0) true)); [|reflexivity].
  apply (reachable_step _ _ _ _ (mkState "A" (Num 0) false)); [|reflexivity].
  apply (reachable_step _ _ _ _ initial); [|reflexivity].
  constructor.
Qed.

(** C9, as stated, fails: in the reachable state with an empty display
    while deleting, the effect schedules no timer. *)
Lemma typing_advance_schedules_no_timer :
  ~ (forall phrases ts ds pd s,
       phrases <> [] -> reachable phrases ts ds pd s ->
       timers_scheduled (useTypingEffect phrases ts ds pd s) = 1).
Proof.
  intros H.
  specialize (H ["A"] 80%Z 50%Z 1800%Z (mkState "" (Num 0) true)).
  discriminate H; [discriminate | exact reachable_emptied].
Qed.

Lemma typing_timers_per_transition_witness :
  timers_scheduled (useTypingEffect ["A"] 80 50 1800 (mkState "" (Num 0) true)) = 0 /\
  useTypingEffect ["A"] 80 50 1800 (mkState "" (Num 0) true)
  = Immediate (mkState "" (Num 0) false).
Proof.
  apply (typing_timers_per_transition ["A"] 80 50 1800 (mkState "" (Num 0) true)).
  - discriminate.
  - exact reachable_emptied.
  - reflexivity.
Defined.

Lemma typing_display_prefix_invariant_witness :
  exists i p,
    phraseIndex (mkState "" (Num 0) true) = Num i /\
    nth_error ["A"] i = Some p /\
    prefix (displayText (mkState "" (Num 0) true)) p = true /\
    displayText (mkState "" (Num 0) true)
    = substring 0 (String.length (displayText (mkState "" (Num 0) true))) p /\
    0 <= String.length (displayText (mkState "" (Num 0) true)) <= String.length p.
Proof.
  apply (proj1 (typing_display_prefix_invariant ["A"] 80 50 1800 ltac:(discriminate))).
  exact reachable_emptied.
Defined.

Lemma typing_steps_by_one_character_witness :
  String.length (displayText (mkState "A" (Num 0) false))
  = String.length (displayText initial) + 1 /\
  isDeleting (mkState "A" (Num 0) false) = false.
Proof.
  apply (typing_steps_by_one_character ["A"; "BB"] 10 5 100
           initial (mkState "A" (Num 0) false)).
  - discriminate.
  - constructor.
  - reflexivity.
  - reflexivity.
Defined.

Lemma typing_index_after_cycles_witness :
  run ["A"; "BB"] 10 5 100 (cycles_steps ["A"; "BB"] 3) initial
  = Updated (mkState "" (Num 1) false) /\
  advances ["A"; "BB"] 10 5 100 (cycles_steps ["A"; "BB"] 3) initial = 3.
Proof.
  apply (proj1 (typing_index_after_cycles ["A"; "BB"] 10 5 100 ltac:(discriminate)) 3).
Defined.

End TypingScenario.

(** ** The visibility tracker *)

Section VisibilityTracker.

Import Visibility.

Lemma handle_keeps_visible (tr : Tracker) (ev : event) :
  isVisible tr = true -> isVisible (handle tr ev) = true.
Proof.
  intros H. destruct ev as [entry rest|]; simpl; [|assumption].
  destruct (observing tr && isIntersecting entry); [reflexivity | assumption].
Qed.

Lemma handle_all_keeps_visible (evs : list event) :
  forall tr, isVisible tr = true -> isVisible (handle_all tr evs) = true.
Proof.
  induction evs as [|ev evs IH]; intros tr H; simpl; [assumption|].
  apply IH, handle_keeps_visible, H.
Qed.

Lemma handle_all_app (tr : Tracker) (evs1 evs2 : list event) :
  handle_all tr (evs1 ++ evs2) = handle_all (handle_all tr evs1) evs2.
Proof. apply fold_left_app. Qed.

Lemma fires_disconnects (tr : Tracker) (ev : event) :
  fires tr ev = true ->
  isVisible (handle tr ev) = true /\ observing (handle tr ev) = false.
Proof.
  destruct ev as [entry rest|]; simpl; [|discriminate].
  intros H. rewrite H. auto.
Qed.

Lemma disconnected_never_fires (evs : list event) :
  forall tr, observing tr = false -> fire_count tr evs = 0.
Proof.
  induction evs as [|ev evs IH]; intros tr H; simpl; [reflexivity|].
  assert (F : fires tr ev = false) by (destruct ev; simpl; rewrite ?H; reflexivity).
  rewrite F. apply IH.
  destruct ev as [entry rest|]; simpl; [|reflexivity].
  rewrite H. exact H.
Qed.

Lemma fire_count_at_most_once (evs : list event) :
  forall tr, fire_count tr evs <= 1.
Proof.
  induction evs as [|ev evs IH]; intros tr; simpl; [lia|].
  destruct (fires tr ev) eqn:F; [|apply IH].
  destruct (fires_disconnects tr ev F) as [_ O].
  rewrite (disconnected_never_fires evs _ O). lia.
Qed.

Lemma quiet_events_keep (evs : list event) :
  forall tr,
    forallb (fun ev => negb (intersecting ev) && negb (is_unmount ev)) evs = true ->
    handle_all tr evs = tr.
Proof.
  induction evs as [|ev evs IH]; intros tr H; simpl in *; [reflexivity|].
  apply andb_prop in H as [H1 H2].
  destruct ev as [entry rest|]; simpl in *; [|discriminate].
  apply andb_prop in H1 as [H1 _]. apply negb_true_iff in H1.
  rewrite H1, andb_false_r. apply IH, H2.
Qed.

(** C4. The visibility signal of a tracker (default threshold 0.15) starts
    false; it becomes true at the first notification whose entry
    intersects, at which point the observer is disconnected; once true it
    stays true under any further events; and along any sequence of events
    the signal is set at most once. *)
Theorem visibility_signal_monotonic :
  (forall thr attached, isVisible (useScrollAnimation thr attached) = false) /\
  (forall attached,
     threshold (useScrollAnimation default_threshold attached) = (15 # 100)%Q) /\
  (forall thr quiet entry rest later,
     forallb (fun ev => negb (intersecting ev) && negb (is_unmount ev)) quiet = true ->
     isIntersecting entry = true ->
     let tr0 := useScrollAnimation thr true in
     isVisible (handle_all tr0 quiet) = false /\
     fires (handle_all tr0 quiet) (Notify entry rest) = true /\
     isVisible (handle_all tr0 (quiet ++ [Notify entry rest])) = true /\
     observing (handle_all tr0 (quiet ++ [Notify entry rest])) = false /\
     isVisible (handle_all tr0 (quiet ++ Notify entry rest :: later)) = true) /\
  (forall tr evs, isVisible tr = true -> isVisible (handle_all tr evs) = true) /\
  (forall tr ev, fires tr ev = true ->
     isVisible (handle tr ev) = true /\ observing (handle tr ev) = false) /\
  (forall tr evs, fire_count tr evs <= 1).
Proof.
  split; [reflexivity|].
  split; [reflexivity|].
  split.
  - intros thr quiet entry rest later Q I tr0.
    assert (F : fires tr0 (Notify entry rest) = true) by (simpl; rewrite I; reflexivity).
    assert (V : isVisible (handle tr0 (Notify entry rest)) = true)
      by (apply fires_disconnects, F).
    rewrite !handle_all_app, (quiet_events_keep quiet tr0 Q).
    split; [reflexivity|]. split; [exact F|].
    split; [exact V|].
    split; [apply (fires_disconnects tr0 _ F)|].
    simpl. apply handle_all_keeps_visible. exact V.
  - split; [intros tr evs; apply handle_all_keeps_visible|].
    split; [apply fires_disconnects|].
    intros tr evs. apply fire_count_at_most_once.
Qed.

Lemma visibility_signal_monotonic_witness :
  let tr0 := useScrollAnimation default_threshold true in
  let quiet := [Notify (mkEntry false) []] in
  let later := [Notify (mkEntry false) []; Notify (mkEntry true) []] in
  isVisible (handle_all tr0 quiet) = false /\
  fires (handle_all tr0 quiet) (Notify (mkEntry true) []) = true /\
  isVisible (handle_all tr0 (quiet ++ [Notify (mkEntry true) []])) = true /\
  observing (handle_all tr0 (quiet ++ [Notify (mkEntry true) []])) = false /\
  isVisible (handle_all tr0 (quiet ++ Notify (mkEntry true) [] :: later)) = true.
Proof.
  apply (proj1 (proj2 (proj2 visibility_signal_monotonic))
           default_threshold [Notify (mkEntry false) []] (mkEntry true) []
           [Notify (mkEntry false) []; Notify (mkEntry true) []]);
    reflexivity.
Defined.

End VisibilityTracker.

(** ** The linear progress bar *)

Section ProgressBar.

Import Visibility Progress.

Variable value : Z.

Local Abbreviation fire_due := (Progress.fire_due value).
Local Abbreviation notify := (Progress.notify value).
Local Abbreviation notify_all := (Progress.notify_all value).
Local Abbreviation at_time := (Progress.at_time value).
Local Abbreviation bar_ok := (Progress.bar_ok value).
Local Abbreviation after_visible := (Progress.after_visible value).

Lemma fire_due_ok (now : Z) (b : Bar) : bar_ok b -> bar_ok (fire_due now b).
Proof.
  intros H. unfold Progress.fire_due.
  destruct (timer b) as [due|] eqn:T; [|exact H].
  destruct (due <=? now)%Z; [|exact H].
  destruct H as [(W & C & S & [N|V])|(_ & _ & N & _)]; try congruence.
  right. simpl. rewrite C. auto.
Qed.

Lemma notify_ok (now : Z) (entry : Entry) (rest : list Entry) (b : Bar) :
  bar_ok b -> bar_ok (notify now entry rest b).
Proof.
  intros H. apply (fire_due_ok now) in H. unfold Progress.notify.
  set (b1 := fire_due now b) in *.
  pose proof (handle_keeps_visible (tracker b1) (Notify entry rest)) as K.
  set (tr' := handle (tracker b1) (Notify entry rest)) in *.
  unfold Progress.bar_ok in *.
  destruct (isVisible (tracker b1)) eqn:V; cbn [negb andb].
  - specialize (K eq_refl).
    destruct H as [(W & C & S & _)|(W & C & N & _)]; [left | right];
      cbn [width setWidth_calls width_set_at timer tracker]; auto.
  - destruct H as [(W & C & S & [N|V'])|(_ & _ & _ & V')]; try discriminate.
    destruct (isVisible tr') eqn:V'; left;
      cbn [width setWidth_calls width_set_at timer tracker]; auto.
Qed.

Lemma notify_all_ok (evs : list timed) :
  forall b, bar_ok b -> bar_ok (notify_all b evs).
Proof.
  induction evs as [|[now [entry rest]] evs IH]; intros b H; simpl; [exact H|].
  apply IH, notify_ok, H.
Qed.

Lemma mounted_ok (attached : bool) : bar_ok (AnimatedProgressBar attached).
Proof. left. simpl. auto. Qed.

Lemma at_time_ok (attached : bool) (evs : list timed) (t : Z) :
  bar_ok (at_time (AnimatedProgressBar attached) evs t).
Proof. apply fire_due_ok, notify_all_ok, mounted_ok. Qed.

(** Notifications without intersection leave a freshly mounted bar as it
    is. *)
Lemma quiet_notifications (quiet : list timed) :
  forallb (fun ev => negb (isIntersecting (fst (snd ev)))) quiet = true ->
  notify_all (AnimatedProgressBar true) quiet = AnimatedProgressBar true.
Proof.
  induction quiet as [|[now [entry rest]] quiet IH]; intros H; simpl in *;
    [reflexivity|].
  apply andb_prop in H as [H1 H2]. apply negb_true_iff in H1.
  unfold Progress.notify. simpl. rewrite H1. simpl. apply IH, H2.
Qed.

Lemma fire_due_after_visible (tv now : Z) (b : Bar) :
  after_visible tv b -> after_visible tv (fire_due now b).
Proof.
  intros [V H]. unfold Progress.fire_due.
  destruct H as [(T & W & S & C)|(T & W & S & C)]; rewrite T; [|split; auto].
  destruct (tv + 200 <=? now)%Z; split; simpl; auto.
  right. rewrite C. auto.
Qed.

Lemma notify_after_visible (tv now : Z) (entry : Entry) (rest : list Entry) (b : Bar) :
  after_visible tv b -> after_visible tv (notify now entry rest b).
Proof.
  intros H. apply (fire_due_after_visible tv now) in H. unfold Progress.notify.
  set (b1 := fire_due now b) in *.
  destruct H as [V H]. rewrite V. cbn [negb andb].
  split; [exact (handle_keeps_visible _ (Notify entry rest) V) | exact H].
Qed.

Lemma notify_all_after_visible (tv : Z) (evs : list timed) :
  forall b, after_visible tv b -> after_visible tv (notify_all b evs).
Proof.
  induction evs as [|[now [entry rest]] evs IH]; intros b H; simpl; [exact H|].
  apply IH, notify_after_visible, H.
Qed.

Lemma becomes_visible (tv : Z) (entry : Entry) (rest : list Entry) :
  isIntersecting entry = true ->
  notify tv entry rest (AnimatedProgressBar true)
  = mkBar (mkTracker true default_threshold false) 0 (Some (tv + 200)%Z) None 0.
Proof.
  intros H. unfold Progress.notify. simpl. rewrite H. reflexivity.
Qed.

Lemma notify_all_app (b : Bar) (evs1 evs2 : list timed) :
  notify_all b (evs1 ++ evs2) = notify_all (notify_all b evs1) evs2.
Proof. apply fold_left_app. Qed.

(** The bar passes the target through as it is given. *)
Lemma bar_settles (quiet later : list timed) (tv t : Z) (entry : Entry) (rest : list Entry) :
  forallb (fun ev => negb (isIntersecting (fst (snd ev)))) quiet = true ->
  isIntersecting entry = true ->
  (tv + 200 <= t)%Z ->
  let b := at_time (AnimatedProgressBar true) (quiet ++ (tv, (entry, rest)) :: later) t in
  width b = value /\ setWidth_calls b = 1 /\
  timer b = None /\ width_set_at b = Some (tv + 200)%Z.
Proof.
  intros Q I Ht. unfold Progress.at_time.
  rewrite notify_all_app, (quiet_notifications quiet Q). simpl.
  rewrite (becomes_visible tv entry rest I).
  set (b1 := mkBar _ _ _ _ _).
  assert (A : after_visible tv b1) by (split; [reflexivity | left; auto]).
  apply (notify_all_after_visible tv later) in A.
  destruct A as [_ [(T & W & S & C)|(T & W & S & C)]];
    unfold Progress.fire_due; rewrite T; simpl; auto.
  destruct (Z.leb_spec (tv + 200) t); [|lia]. simpl. rewrite C. auto.
Qed.

Lemma bar_waits (quiet : list timed) (tv t : Z) (entry : Entry) (rest : list Entry) :
  forallb (fun ev => negb (isIntersecting (fst (snd ev)))) quiet = true ->
  isIntersecting entry = true ->
  (t < tv + 200)%Z ->
  let b := at_time (AnimatedProgressBar true) (quiet ++ [(tv, (entry, rest))]) t in
  width b = 0%Z /\ setWidth_calls b = 0 /\ timer b = Some (tv + 200)%Z.
Proof.
  intros Q I Ht. unfold Progress.at_time.
  rewrite notify_all_app, (quiet_notifications quiet Q). simpl.
  rewrite (becomes_visible tv entry rest I).
  unfold Progress.fire_due. simpl.
  destruct (Z.leb_spec (tv + 200) t); [lia|]. simpl. auto.
Qed.

(** The linear bar with target in [0,100]: the current value starts at 0;
    when a notification at time [tv] makes the bar visible, the value is
    still 0 until 200ms later, from then on it is the target, and the width
    drawn once the transition duration is over equals the target exactly;
    [setWidth] is called once then, and never more than once whatever the
    notifications. *)
Lemma bar_reaches_target :
  (0 <= value <= 100)%Z ->
  (forall attached, width (AnimatedProgressBar attached) = 0%Z) /\
  (forall (quiet : list timed) (tv : Z) (entry : Entry) (rest : list Entry)
          (later : list timed) (t : Z) (ease : Q -> Q),
     forallb (fun ev => negb (isIntersecting (fst (snd ev)))) quiet = true ->
     isIntersecting entry = true ->
     let b0 := AnimatedProgressBar true in
     let evs := (quiet ++ (tv, (entry, rest)) :: later)%list in
     ((t < tv + 200)%Z ->
        width (at_time b0 (quiet ++ [(tv, (entry, rest))]) t) = 0%Z) /\
     ((tv + 200 <= t)%Z ->
        width (at_time b0 evs t) = value /\
        setWidth_calls (at_time b0 evs t) = 1 /\
        timer (at_time b0 evs t) = None) /\
     ((tv + 200 + duration <= t)%Z ->
        drawn_width ease (at_time b0 evs t) t = inject_Z value /\
        (0 <= drawn_width ease (at_time b0 evs t) t <= 100)%Q)) /\
  (forall attached evs t,
     setWidth_calls (at_time (AnimatedProgressBar attached) evs t) <= 1).
Proof.
  intros Hv. split; [reflexivity|]. split.
  - intros quiet tv entry rest later t ease Q I b0 evs.
    split; [intros Ht; apply (bar_waits quiet tv t entry rest Q I Ht)|].
    split.
    + intros Ht.
      destruct (bar_settles quiet later tv t entry rest Q I Ht) as (W & C & T & _).
      auto.
    + intros Ht. unfold duration in Ht.
      destruct (bar_settles quiet later tv t entry rest Q I) as (W & _ & _ & S); [lia|].
      unfold drawn_width. fold b0 evs in W, S. rewrite S, W. unfold duration.
      destruct (Z.leb_spec (tv + 200 + 1000) t); [|lia].
      split; [reflexivity|].
      split; [change 0%Q with (inject_Z 0) | change 100%Q with (inject_Z 100)];
        rewrite <- Zle_Qle; lia.
  - intros attached evs t.
    destruct (at_time_ok attached evs t) as [(_ & C & _)|(_ & C & _)]; rewrite C; lia.
Qed.

End ProgressBar.

(** ** Targets of the progress indicators *)

Section ProgressTargets.

Import Visibility Progress.

Lemma stroke_fill_visible (c : Q) (value : Z) :
  (stroke_fill c value true == inject_Z value / 100 * c)%Q.
Proof. unfold stroke_fill, strokeDashoffset. ring. Qed.

Lemma stroke_fill_in_range (c : Q) (v : Z) (visible : bool) :
  (0 < c)%Q -> (0 <= v <= 100)%Z -> (0 <= stroke_fill c v visible <= c)%Q.
Proof.
  intros Hc [H0 H1]. unfold stroke_fill, strokeDashoffset.
  destruct visible; [|lra].
  rewrite Zle_Qle in H0, H1.
  change (inject_Z 100) with 100%Q in H1. change (inject_Z 0) with 0%Q in H0.
  set (x := inject_Z v) in *.
  setoid_replace (c - (c - x / 100 * c))%Q with ((1 # 100) * (x * c))%Q by field.
  nra.
Qed.

Lemma width_zero_or_target (value : Z) (attached : bool) (evs : list timed) (t : Z) :
  width (at_time value (AnimatedProgressBar attached) evs t) = 0%Z \/
  width (at_time value (AnimatedProgressBar attached) evs t) = value.
Proof.
  destruct (at_time_ok value attached evs t) as [(W & _)|(W & _)]; auto.
Qed.

(** C8, as stated, fails: a bar given the target 150 is drawn at 150, and a
    ring given 150 is filled beyond its circumference. *)
Lemma progress_accepts_out_of_range_target :
  ~ (forall value evs t,
       ~ (0 <= value <= 100)%Z ->
       (0 <= width (at_time value (AnimatedProgressBar true) evs t) <= 100)%Z) /\
  ~ (forall c value,
       (0 < c)%Q -> ~ (0 <= value <= 100)%Z ->
       (0 <= stroke_fill c value true <= c)%Q).
Proof.
  split; intros H.
  - specialize (H 150%Z [(0, (mkEntry true, []))]%Z 200%Z).
    vm_compute in H. destruct H as [_ H]; [intros [_ K]; apply K; reflexivity|].
    apply H. reflexivity.
  - specialize (H 1%Q 150%Z).
    destruct H as [_ H]; [reflexivity | lia |].
    vm_compute in H. apply H. reflexivity.
Qed.

(** C8, as the code has it. The indicators neither clamp nor reject: a bar
    that became visible holds exactly the target it was given, whatever it
    is, and a visible ring is filled by target/100 of its circumference.
    Every target written in the page lies in [0,100], so for these the
    current value of a bar is within [0,100] at all times and the filled
    part of a ring is within its circumference. *)
Theorem progress_targets_pass_through :
  (forall value (quiet later : list timed) tv entry rest t,
     forallb (fun ev => negb (isIntersecting (fst (snd ev)))) quiet = true ->
     isIntersecting entry = true ->
     (tv + 200 <= t)%Z ->
     width (at_time value (AnimatedProgressBar true)
              (quiet ++ (tv, (entry, rest)) :: later) t) = value) /\
  (forall c value, (stroke_fill c value true == inject_Z value / 100 * c)%Q) /\
  Forall (fun v => (0 <= v <= 100)%Z) (bar_targets ++ language_targets) /\
  (forall v attached evs t,
     In v bar_targets ->
     (0 <= width (at_time v (AnimatedProgressBar attached) evs t) <= 100)%Z) /\
  (forall c v visible,
     (0 < c)%Q -> In v language_targets ->
     (0 <= stroke_fill c v visible <= c)%Q).
Proof.
  split.
  { intros value quiet later tv entry rest t Q I Ht.
    apply (bar_settles value quiet later tv t entry rest Q I Ht). }
  split; [exact stroke_fill_visible|].
  split; [repeat constructor; lia|].
  split.
  - intros v attached evs t Hin.
    assert (Hv : (0 <= v <= 100)%Z).
    { simpl in Hin. repeat (destruct Hin as [<-|Hin]; [lia|]). contradiction. }
    destruct (width_zero_or_target v attached evs t) as [W|W]; rewrite W; lia.
  - intros c v visible Hc Hin.
    apply stroke_fill_in_range; [exact Hc|].
    simpl in Hin. repeat (destruct Hin as [<-|Hin]; [lia|]). contradiction.
Qed.

Lemma progress_targets_pass_through_witness :
  width (at_time 92 (AnimatedProgressBar true) [(40, (mkEntry true, []))]%Z 240) = 92%Z.
Proof.
  apply (proj1 progress_targets_pass_through 92%Z [] [] 40%Z (mkEntry true) [] 240%Z
           eq_refl eq_refl).
  lia.
Defined.

End ProgressTargets.

(** ** Linear and circular indicators *)

Section ProgressIndicators.

Import Visibility Progress.

Lemma ring_quiet (quiet : list timed) :
  forallb (fun ev => negb (isIntersecting (fst (snd ev)))) quiet = true ->
  Ring.notify_all (Ring.LanguageCircle true) quiet = Ring.LanguageCircle true.
Proof.
  induction quiet as [|[now [entry rest]] quiet IH]; intros H; simpl in *;
    [reflexivity|].
  apply andb_prop in H as [H1 H2]. apply negb_true_iff in H1.
  unfold Ring.notify. simpl. rewrite H1. simpl. apply IH, H2.
Qed.

Lemma ring_stays_shown (tv : Z) (later : list timed) :
  forall r,
    isVisible (Ring.ring_tracker r) = true -> Ring.shown_at r = Some tv ->
    isVisible (Ring.ring_tracker (Ring.notify_all r later)) = true /\
    Ring.shown_at (Ring.notify_all r later) = Some tv.
Proof.
  induction later as [|[now [entry rest]] later IH]; intros r V S; simpl; [auto|].
  apply IH.
  - apply (handle_keeps_visible _ (Notify entry rest) V).
  - unfold Ring.notify. cbn [Ring.shown_at]. rewrite V. exact S.
Qed.

Lemma ring_shown (quiet later : list timed) (tv : Z) (entry : Entry) (rest : list Entry) :
  forallb (fun ev => negb (isIntersecting (fst (snd ev)))) quiet = true ->
  isIntersecting entry = true ->
  let r := Ring.notify_all (Ring.LanguageCircle true)
             (quiet ++ (tv, (entry, rest)) :: later) in
  isVisible (Ring.ring_tracker r) = true /\ Ring.shown_at r = Some tv.
Proof.
  intros Q I r. subst r.
  assert (E : Ring.notify_all (Ring.LanguageCircle true)
                (quiet ++ (tv, (entry, rest)) :: later)
              = Ring.notify_all
                  (Ring.notify tv entry rest
                     (Ring.notify_all (Ring.LanguageCircle true) quiet)) later).
  { unfold Ring.notify_all. rewrite fold_left_app. reflexivity. }
  rewrite E, (ring_quiet quiet Q).
  apply (ring_stays_shown tv later).
  - unfold Ring.notify. simpl. rewrite I. reflexivity.
  - unfold Ring.notify. simpl. rewrite I. reflexivity.
Qed.

(** C7, as stated, fails for the circular indicator: a ring that is not
    visible yet is not at 0 but drawn in full, and the render that follows
    the visibility notification already carries the offset of the target,
    with no delay. *)
Lemma ring_is_not_delayed :
  ~ (forall c value,
       (0 < c)%Q -> (0 <= value <= 100)%Z ->
       (stroke_fill c value false == 0)%Q) /\
  ~ (forall c value tv entry,
       (0 < c)%Q -> (0 <= value <= 100)%Z -> isIntersecting entry = true ->
       (Ring.offset c value (Ring.notify tv entry [] (Ring.LanguageCircle true))
        == strokeDashoffset c value false)%Q).
Proof.
  split; intros H.
  - specialize (H 1%Q 50%Z eq_refl ltac:(lia)). discriminate H.
  - specialize (H 1%Q 50%Z 0%Z (mkEntry true) eq_refl ltac:(lia) eq_refl).
    discriminate H.
Qed.

(** C7, as the code has it. A linear bar with target in [0,100] starts with
    current value 0; once a notification makes it visible, the value is
    still 0 until 200ms later, from then on it is the target, the width
    drawn once the transition is over equals the target exactly, and
    [setWidth] is called once and never again.  A ring has no current value
    and no delay: its stroke offset is computed at each render from the
    visibility signal, and from the render that follows the visibility
    notification on it is the circumference minus target/100 of it, so that
    target/100 of the circumference is drawn; this is what the host draws
    once the transition of 1.5s is over, and the transition starts once. *)
Theorem progress_indicators_reach_target (value : Z) :
  (0 <= value <= 100)%Z ->
  (forall attached, width (AnimatedProgressBar attached) = 0%Z) /\
  (forall (quiet : list timed) (tv : Z) (entry : Entry) (rest : list Entry)
          (later : list timed) (t : Z) (ease : Q -> Q),
     forallb (fun ev => negb (isIntersecting (fst (snd ev)))) quiet = true ->
     isIntersecting entry = true ->
     let b0 := AnimatedProgressBar true in
     let evs := (quiet ++ (tv, (entry, rest)) :: later)%list in
     ((t < tv + 200)%Z ->
        width (at_time value b0 (quiet ++ [(tv, (entry, rest))]) t) = 0%Z) /\
     ((tv + 200 <= t)%Z ->
        width (at_time value b0 evs t) = value /\
        setWidth_calls (at_time value b0 evs t) = 1 /\
        timer (at_time value b0 evs t) = None) /\
     ((tv + 200 + duration <= t)%Z ->
        drawn_width ease (at_time value b0 evs t) t = inject_Z value /\
        (0 <= drawn_width ease (at_time value b0 evs t) t <= 100)%Q)) /\
  (forall attached evs t,
     setWidth_calls (at_time value (AnimatedProgressBar attached) evs t) <= 1) /\
  (forall (c : Q) (quiet : list timed) (tv : Z) (entry : Entry) (rest : list Entry)
          (later : list timed) (t : Z) (ease : Q -> Q),
     forallb (fun ev => negb (isIntersecting (fst (snd ev)))) quiet = true ->
     isIntersecting entry = true ->
     let r := Ring.notify_all (Ring.LanguageCircle true)
                (quiet ++ (tv, (entry, rest)) :: later) in
     (Ring.offset c value r == c - inject_Z value / 100 * c)%Q /\
     (c - Ring.offset c value r == inject_Z value / 100 * c)%Q /\
     Ring.shown_at r = Some tv /\
     ((tv + Ring.duration <= t)%Z ->
        Ring.drawn_offset ease c value r t = Ring.offset c value r)).
Proof.
  intros Hv.
  destruct (bar_reaches_target value Hv) as (A & B & C).
  split; [exact A|]. split; [exact B|]. split; [exact C|].
  intros c quiet tv entry rest later t ease Q I r.
  destruct (ring_shown quiet later tv entry rest Q I) as [V S].
  fold r in V, S.
  assert (O : (Ring.offset c value r == c - inject_Z value / 100 * c)%Q)
    by (unfold Ring.offset; rewrite V; reflexivity).
  split; [exact O|]. split; [rewrite O; ring|]. split; [exact S|].
  intros Ht. unfold Ring.drawn_offset. rewrite S.
  destruct (Z.leb_spec (tv + Ring.duration) t); [reflexivity | lia].
Qed.

Lemma progress_indicators_reach_target_witness :
  (width (at_time 85 (AnimatedProgressBar true)
            [(0, (mkEntry false, [])); (40, (mkEntry true, []))]%Z 240)
   = 85%Z /\
   setWidth_calls (at_time 85 (AnimatedProgressBar true)
                     [(0, (mkEntry false, [])); (40, (mkEntry true, []))]%Z 240)
   = 1 /\
   timer (at_time 85 (AnimatedProgressBar true)
            [(0, (mkEntry false, [])); (40, (mkEntry true, []))]%Z 240)
   = None) /\
  (Ring.offset 1 85
     (Ring.notify_all (Ring.LanguageCircle true)
        [(0, (mkEntry false, [])); (40, (mkEntry true, []))]%Z)
   == 1 - inject_Z 85 / 100 * 1)%Q.
Proof.
  split.
  - apply (proj1 (proj2 (progress_indicators_reach_target 85 ltac:(lia)))
             [(0, (mkEntry false, []))]%Z 40%Z (mkEntry true) [] [] 240%Z (fun x => x)
             eq_refl eq_refl).
    lia.
  - apply (proj2 (proj2 (proj2 (progress_indicators_reach_target 85 ltac:(lia))))
             1%Q [(0, (mkEntry false, []))]%Z 40%Z (mkEntry true) [] [] 0%Z (fun x => x)
             eq_refl eq_refl).
Defined.

End ProgressIndicators.

(** ** The navigation bar *)

Section Navigation.

Import Nav.

Variable w : Window.

Lemma scan_app (l r : list string) :
  forall n, n <= List.length l -> scan (l ++ r) w n = scan l w n.
Proof.
  induction n as [|i IH]; intros H; simpl; [reflexivity|].
  rewrite nth_error_app1 by lia. rewrite IH by lia. reflexivity.
Qed.

Lemma scan_snoc (l : list string) (x : string) :
  scan (l ++ [x]) w (List.length (l ++ [x]))
  = match getElementById w x with
    | Some offsetTop =>
        if (offsetTop <=? scrollY w + 80)%Z then Some x
        else scan l w (List.length l)
    | None => scan l w (List.length l)
    end.
Proof.
  rewrite length_app, Nat.add_1_r. simpl.
  rewrite nth_error_app2, Nat.sub_diag by lia. simpl.
  rewrite scan_app by lia. reflexivity.
Qed.

Lemma scan_latest_passed (ids : list string) :
  scan ids w (List.length ids) = latest_passed ids w.
Proof.
  induction ids as [|x l IH] using rev_ind; [reflexivity|].
  rewrite scan_snoc, IH. unfold latest_passed.
  rewrite filter_app, map_app. simpl.
  destruct (getElementById w x) as [top|]; simpl.
  - destruct (top <=? scrollY w + 80)%Z; simpl.
    + rewrite last_last. reflexivity.
    + rewrite app_nil_r. reflexivity.
  - rewrite app_nil_r. reflexivity.
Qed.

End Navigation.

Section NavigationClaims.

Import Nav.

(** C2, as stated, fails on mount: mounting the bar in a window already
    scrolled to 850, where the latest section passed is "about", leaves
    "home" active. *)
Lemma nav_mount_keeps_home :
  ~ (forall w id, latest_passed sectionIds w = Some id -> activeSection Navbar = id).
Proof.
  intros H. specialize (H example_window "about" eq_refl). discriminate H.
Qed.

(** C2, as the code has it. On every scroll event the handler walks the
    section list from last to first and stops at the first section that is
    present and whose top is at most the scroll offset plus 80; this is the
    section latest in document order among those, it becomes the active
    one, and when there is none the active section is left as it was.  With
    tops 0, 800, 1600, 2400 for home, about, skills, education and scroll
    offset 850, a scroll event makes "about" active.  On mount nothing is
    computed: the active section is "home". *)
Theorem nav_active_section_on_scroll :
  (forall ids w, scan ids w (List.length ids) = latest_passed ids w) /\
  (forall w s,
     activeSection (handleScroll w s)
     = match latest_passed sectionIds w with
       | Some id => id
       | None => activeSection s
       end) /\
  (forall s, activeSection (handleScroll example_window s) = "about") /\
  (forall s,
     activeSection
       (handleScroll_on ["home"; "about"; "skills"; "education"] example_window s)
     = "about") /\
  activeSection Navbar = "home".
Proof.
  split; [intros ids w; apply scan_latest_passed|].
  split.
  - intros w s. unfold handleScroll, handleScroll_on. cbn [activeSection].
    rewrite (scan_latest_passed w sectionIds). reflexivity.
  - repeat split; intros s; reflexivity.
Qed.

End NavigationClaims.

(** * Further properties of the code *)

(** ** The typing engine keeps running *)

Section TypingProgress.

Import JS Typing TypingClock.

Variable phrases : list string.
Variables typingSpeed deletingSpeed pauseDuration : Z.

Local Abbreviation effect_of := (useTypingEffect phrases typingSpeed deletingSpeed pauseDuration).
Local Abbreviation step := (Typing.step phrases typingSpeed deletingSpeed pauseDuration).
Local Abbreviation run := (Typing.run phrases typingSpeed deletingSpeed pauseDuration).
Local Abbreviation reachable := (Typing.reachable phrases typingSpeed deletingSpeed pauseDuration).
Local Abbreviation elapsed := (TypingClock.elapsed phrases typingSpeed deletingSpeed pauseDuration).

Lemma slice0_length_le (p : string) (e : Z) :
  (0 <= e)%Z -> (Z.of_nat (String.length (slice0 p e)) <= e)%Z.
Proof.
  intros H. rewrite <- (Z2Nat.id e H), slice0_of_nat, substring0_length. lia.
Qed.

Lemma step_changes_cell (s s' : State) :
  step s = Updated s' ->
  displayText s' <> displayText s \/ isDeleting s' <> isDeleting s.
Proof.
  unfold Typing.step, useTypingEffect.
  destruct s as [d idx del]. cbn [displayText phraseIndex isDeleting].
  destruct del; cbn [negb andb].
  - destruct (String.eqb d "") eqn:E.
    + intros H. injection H as <-. right. discriminate.
    + destruct (get phrases idx) as [p|]; [|discriminate].
      intros H. injection H as <-. left. cbn [setDisplayText displayText].
      intros X.
      apply String.eqb_neq in E.
      assert (L : String.length d <> 0) by (intros Z; apply E, length_zero_empty, Z).
      pose proof (slice0_length_le p (Z.of_nat (String.length d) - 1)) as B.
      rewrite X in B. lia.
  - destruct (strict_eq d (get phrases idx)) eqn:E.
    + intros H. injection H as <-. right. discriminate.
    + destruct (get phrases idx) as [p|]; [|discriminate].
      intros H. injection H as <-. left. cbn [setDisplayText displayText].
      intros X.
      simpl in E. apply String.eqb_neq in E. apply E.
      replace (Z.of_nat (String.length d) + 1)%Z
        with (Z.of_nat (S (String.length d))) in X by lia.
      rewrite slice0_of_nat in X.
      pose proof (f_equal String.length X) as L.
      rewrite substring0_length in L.
      rewrite <- X. apply substring0_full. lia.
Qed.

(** X2. Whatever the state, a transition leads to a different state: it
    changes the displayed text or the deleting flag, so React renders again
    and the effect runs again.  (The phrase index need not change: with one
    phrase the advance writes back index 0.) *)
Theorem typing_step_changes_state (s s' : State) :
  step s = Updated s' ->
  s' <> s /\
  (displayText s' <> displayText s \/ isDeleting s' <> isDeleting s).
Proof.
  intros H. pose proof (step_changes_cell s s' H) as C.
  split; [|exact C].
  intros ->. destruct C as [C|C]; apply C; reflexivity.
Qed.

Lemma run_from_reachable (n : nat) :
  phrases <> [] ->
  forall s, reachable s -> exists s', run n s = Updated s' /\ reachable s'.
Proof.
  intros Hne. induction n as [|n IH]; intros s R; simpl.
  - eauto.
  - destruct (invariant_step phrases typingSpeed deletingSpeed pauseDuration s
                (reachable_invariant _ _ _ _ s Hne R)) as (s1 & St & _).
    rewrite St. apply IH. econstructor; eassumption.
Qed.

(** X1. For a non-empty phrase list the engine never stops and never throws:
    any number of transitions from the initial state yields a state, and
    the display of that state is a prefix of the phrase it is working on. *)
Theorem typing_never_faults (n : nat) :
  phrases <> [] ->
  exists s i p,
    run n initial = Updated s /\
    phraseIndex s = Num i /\ nth_error phrases i = Some p /\
    prefix (displayText s) p = true.
Proof.
  intros Hne.
  destruct (run_from_reachable n Hne initial) as (s & R & Re); [constructor|].
  destruct (reachable_invariant _ _ _ _ s Hne Re) as (i & p & Hi & Hp & Hpre & _).
  exists s, i, p. auto.
Qed.

(** X3. Every phrase of the list gets displayed in full: phrase [i] is complete
    after the cycles of the phrases before it and one transition per
    character, and the next transition is the pause that starts its
    deletion. *)
Theorem typing_shows_every_phrase (i : nat) (p : string) :
  nth_error phrases i = Some p ->
  run (cycles_steps phrases i + String.length p) initial
  = Updated (mkState p (Num i) false) /\
  step (mkState p (Num i) false) = Updated (mkState p (Num i) true).
Proof.
  intros Hp.
  assert (Hlt : i < List.length phrases) by (apply nth_error_Some; congruence).
  assert (Hne : phrases <> []) by (intros E; rewrite E in Hlt; simpl in Hlt; lia).
  split; [|apply (step_pause _ _ _ _ i p Hp)].
  rewrite run_add.
  destruct (run_cycles phrases typingSpeed deletingSpeed pauseDuration i Hne) as [R _].
  rewrite R, Nat.mod_small by exact Hlt.
  destruct (run_typing phrases typingSpeed deletingSpeed pauseDuration i p Hp
              (String.length p) 0) as [R1 _]; [lia|].
  rewrite substring0_nil in R1. exact R1.
Qed.

(** X4. The animation is periodic: after one cycle for each phrase of the list
    the engine is back in its initial state, so it behaves from there on as
    it did from the start. *)
Theorem typing_is_periodic (n : nat) :
  phrases <> [] ->
  run (cycles_steps phrases (List.length phrases)) initial = Updated initial /\
  run (cycles_steps phrases (List.length phrases) + n) initial = run n initial.
Proof.
  intros Hne.
  destruct (run_cycles phrases typingSpeed deletingSpeed pauseDuration
              (List.length phrases) Hne) as [R _].
  rewrite Nat.Div0.mod_same in R.
  split; [exact R|]. rewrite run_add, R. reflexivity.
Qed.

End TypingProgress.

(** ** Time in the typing engine *)

Section TypingTime.

Import JS Typing TypingClock.

Variable phrases : list string.
Variables typingSpeed deletingSpeed pauseDuration : Z.

Local Abbreviation effect_of := (useTypingEffect phrases typingSpeed deletingSpeed pauseDuration).
Local Abbreviation step := (Typing.step phrases typingSpeed deletingSpeed pauseDuration).
Local Abbreviation run := (Typing.run phrases typingSpeed deletingSpeed pauseDuration).
Local Abbreviation reachable := (Typing.reachable phrases typingSpeed deletingSpeed pauseDuration).
Local Abbreviation invariant := (Typing.invariant phrases).
Local Abbreviation elapsed := (TypingClock.elapsed phrases typingSpeed deletingSpeed pauseDuration).
Local Abbreviation sample := (Typing.sample phrases typingSpeed deletingSpeed pauseDuration).

Lemma elapsed_add (a b : nat) :
  forall s,
    elapsed (a + b) s
    = (elapsed a s
       + match run a s with
         | Updated s' => elapsed b s'
         | TypeError => 0
         end)%Z.
Proof.
  induction a as [|a IH]; intros s; simpl; [reflexivity|].
  destruct (step s); [rewrite IH; lia | lia].
Qed.

Lemma elapsed_one (s : State) : elapsed 1 s = wait (effect_of s).
Proof. simpl. destruct (step s); lia. Qed.

Section OneCycleTime.

Variables (i : nat) (p : string).
Hypothesis Hp : nth_error phrases i = Some p.

Lemma wait_typing (k : nat) :
  k < String.length p ->
  wait (effect_of (mkState (substring 0 k p) (Num i) false)) = clamp_delay typingSpeed.
Proof.
  intros H.
  destruct (effect_typing phrases typingSpeed deletingSpeed pauseDuration i p Hp k H)
    as (cb & E & _).
  rewrite E. reflexivity.
Qed.

Lemma wait_pause :
  wait (effect_of (mkState p (Num i) false)) = clamp_delay pauseDuration.
Proof.
  destruct (effect_pause phrases typingSpeed deletingSpeed pauseDuration i p Hp)
    as (cb & E & _).
  rewrite E. reflexivity.
Qed.

Lemma wait_delete (k : nat) :
  k < String.length p ->
  wait (effect_of (mkState (substring 0 (S k) p) (Num i) true)) = clamp_delay deletingSpeed.
Proof.
  intros H.
  destruct (effect_delete phrases typingSpeed deletingSpeed pauseDuration i p Hp k H)
    as (cb & E & _).
  rewrite E. reflexivity.
Qed.

Lemma elapsed_typing (n : nat) :
  forall k, n + k = String.length p ->
    elapsed n (mkState (substring 0 k p) (Num i) false)
    = (Z.of_nat n * clamp_delay typingSpeed)%Z.
Proof.
  induction n as [|n IH]; intros k H; [reflexivity|].
  cbn [TypingClock.elapsed].
  rewrite wait_typing, (step_typing _ _ _ _ i p Hp), (IH (S k)) by lia. lia.
Qed.

Lemma elapsed_deleting (k : nat) :
  k <= String.length p ->
  elapsed k (mkState (substring 0 k p) (Num i) true)
  = (Z.of_nat k * clamp_delay deletingSpeed)%Z.
Proof.
  induction k as [|k IH]; intros H; [reflexivity|].
  cbn [TypingClock.elapsed].
  rewrite wait_delete, (step_delete _ _ _ _ i p Hp), IH by lia. lia.
Qed.

(** X5. A full cycle on a phrase takes one typing delay per character, the
    pause, and one deleting delay per character; the advance to the next
    phrase takes no time. *)
Theorem typing_cycle_duration :
  elapsed (cycle_steps p) (mkState "" (Num i) false)
  = (Z.of_nat (String.length p) * clamp_delay typingSpeed
     + clamp_delay pauseDuration
     + Z.of_nat (String.length p) * clamp_delay deletingSpeed)%Z.
Proof.
  unfold cycle_steps.
  destruct (run_typing phrases typingSpeed deletingSpeed pauseDuration i p Hp
              (String.length p) 0) as [R1 _]; [lia|].
  destruct (run_deleting phrases typingSpeed deletingSpeed pauseDuration i p Hp
              (String.length p)) as [R2 _]; [lia|].
  pose proof (elapsed_typing (String.length p) 0) as T1.
  pose proof (elapsed_deleting (String.length p)) as T2.
  rewrite substring0_nil in R1, T1.
  rewrite substring0_full in R2, T2 by lia.
  rewrite !elapsed_add, !run_add, R1, T1 by lia.
  rewrite run_one, !elapsed_one, (step_pause _ _ _ _ i p Hp), R2, T2, wait_pause by lia.
  rewrite elapsed_one, effect_advance. simpl wait. lia.
Qed.

End OneCycleTime.

(** What a transition out of a state with the invariant waits for. *)
Lemma step_wait (s : State) :
  invariant s ->
  exists s',
    step s = Updated s' /\ invariant s' /\
    ((is_advance s = true /\ wait (effect_of s) = 0%Z /\ is_advance s' = false) \/
     (is_advance s = false /\
      (wait (effect_of s) = clamp_delay typingSpeed \/
       wait (effect_of s) = clamp_delay deletingSpeed \/
       wait (effect_of s) = clamp_delay pauseDuration))).
Proof.
  intros I.
  destruct (step_cases phrases typingSpeed deletingSpeed pauseDuration s I)
    as (i & p & s' & _ & Hp & St & T).
  exists s'. split; [exact St|].
  split; [eapply transition_invariant; eassumption|].
  destruct T as [k Hk| |k Hk|].
  - right. split; [reflexivity|]. left. apply (wait_typing i p Hp k Hk).
  - right. split; [reflexivity|]. right. right. apply (wait_pause i p Hp).
  - right. split.
    + unfold is_advance. simpl. apply (eqb_substring_nonempty p k Hk).
    + right. left. apply (wait_delete i p Hp k Hk).
  - left. repeat split.
Qed.

Lemma sample_spins (t : Z) (fuel : nat) :
  (typingSpeed <= 0)%Z -> (deletingSpeed <= 0)%Z -> (pauseDuration <= 0)%Z ->
  forall clock s, invariant s -> (clock <= t)%Z -> sample fuel clock s t = None.
Proof.
  intros Ht Hd Hp.
  induction fuel as [|fuel IH]; intros clock s I Hc; [reflexivity|].
  cbn [Typing.sample].
  destruct (step_wait s I) as (s' & St & I' & W).
  assert (W0 : wait (effect_of s) = 0%Z).
  { unfold clamp_delay in W. destruct W as [(_ & W & _)|(_ & [W|[W|W]])]; lia. }
  rewrite W0, St, Z.add_0_r.
  destruct (Z.leb_spec clock t); [|lia].
  apply IH; assumption.
Qed.

(** With all three delays zero (or negative) the engine never lets time
    pass: however many transitions are allowed, the state displayed at a
    time [t >= 0] is never reached. *)
Lemma typing_zero_delays_spin (fuel : nat) (t : Z) :
  phrases <> [] ->
  (typingSpeed <= 0)%Z -> (deletingSpeed <= 0)%Z -> (pauseDuration <= 0)%Z ->
  (0 <= t)%Z ->
  sample fuel 0 initial t = None.
Proof.
  intros Hne Ht Hd Hp H0.
  apply sample_spins; auto using invariant_initial.
Qed.

Lemma div_step (m a w : Z) :
  (0 < m)%Z -> (m <= w)%Z -> (w <= a)%Z ->
  Z.to_nat ((a - w) / m) < Z.to_nat (a / m).
Proof.
  intros Hm Hw Ha.
  assert (A : ((a - w) / m <= (a - m) / m)%Z) by (apply Z.div_le_mono; lia).
  assert (B : ((a - m) / m = a / m - 1)%Z).
  { replace (a - m)%Z with (a + (-1) * m)%Z by lia. rewrite Z.div_add by lia. lia. }
  assert (C : (0 <= (a - w) / m)%Z) by (apply Z.div_pos; lia).
  lia.
Qed.

Lemma sample_defined (m t : Z) (fuel : nat) :
  phrases <> [] ->
  (0 < m)%Z ->
  (m <= typingSpeed)%Z -> (m <= deletingSpeed)%Z -> (m <= pauseDuration)%Z ->
  forall clock s,
    reachable s -> (clock <= t)%Z ->
    transitions_until m clock t s <= fuel ->
    exists r, sample fuel clock s t = Some r /\ reachable r.
Proof.
  intros Hne Hm Ht Hd Hp.
  induction fuel as [|fuel IH]; intros clock s R Hc F.
  { unfold transitions_until in F. destruct (is_advance s); lia. }
  cbn [Typing.sample].
  destruct (step_wait s (reachable_invariant _ _ _ _ s Hne R)) as (s' & St & _ & W).
  assert (R' : reachable s') by (econstructor; eassumption).
  rewrite St. unfold transitions_until in F.
  destruct W as [(A & W & A')|(A & W)]; rewrite A in F.
  - rewrite W, Z.add_0_r.
    destruct (Z.leb_spec clock t); [|lia].
    apply IH; auto. unfold transitions_until. rewrite A'. lia.
  - assert (Wm : (m <= wait (effect_of s))%Z)
      by (unfold clamp_delay in W; destruct W as [W|[W|W]]; lia).
    destruct (Z.leb_spec (clock + wait (effect_of s)) t); [|eauto].
    apply IH; auto. unfold transitions_until.
    pose proof (div_step m (t - clock) (wait (effect_of s)) Hm Wm ltac:(lia)) as D.
    replace (t - (clock + wait (effect_of s)))%Z
      with (t - clock - wait (effect_of s))%Z by lia.
    destruct (is_advance s'); lia.
Qed.

(** X6. With delays of at least [m > 0] only finitely many transitions fit
    before any time [t >= 0]: two per elapsed [m] and one more suffice to
    find the state displayed at [t], which is a reachable state of the
    engine. *)
Theorem typing_display_defined_at (m t : Z) (fuel : nat) :
  phrases <> [] ->
  (0 < m)%Z ->
  (m <= typingSpeed)%Z -> (m <= deletingSpeed)%Z -> (m <= pauseDuration)%Z ->
  (0 <= t)%Z ->
  2 * Z.to_nat (t / m) + 1 <= fuel ->
  exists r, sample fuel 0 initial t = Some r /\ reachable r.
Proof.
  intros Hne Hm Ht Hd Hp H0 F.
  apply (sample_defined m t fuel Hne Hm Ht Hd Hp); auto; [constructor|].
  unfold transitions_until. rewrite Z.sub_0_r. exact F.
Qed.

End TypingTime.

(** ** The typing hook and its timers *)

Section HookTimers.

Import JS Typing Lifecycle.

Variable phrases : list string.
Variables typingSpeed deletingSpeed pauseDuration : Z.

Local Abbreviation effect_of := (useTypingEffect phrases typingSpeed deletingSpeed pauseDuration).
Local Abbreviation step := (Typing.step phrases typingSpeed deletingSpeed pauseDuration).
Local Abbreviation reachable := (Typing.reachable phrases typingSpeed deletingSpeed pauseDuration).
Local Abbreviation commit := (Lifecycle.commit phrases typingSpeed deletingSpeed pauseDuration).
Local Abbreviation mount := (Lifecycle.mount phrases typingSpeed deletingSpeed pauseDuration).
Local Abbreviation fire := (Lifecycle.fire phrases typingSpeed deletingSpeed pauseDuration).
Local Abbreviation handle := (Lifecycle.handle phrases typingSpeed deletingSpeed pauseDuration).
Local Abbreviation handle_all := (Lifecycle.handle_all phrases typingSpeed deletingSpeed pauseDuration).
Local Abbreviation arises := (Lifecycle.arises phrases typingSpeed deletingSpeed pauseDuration).
Local Abbreviation scheduled := (Lifecycle.scheduled phrases typingSpeed deletingSpeed pauseDuration).
Local Abbreviation settled := (Lifecycle.settled phrases typingSpeed deletingSpeed pauseDuration).

(** The effect sets state directly exactly when the display is empty while
    deleting, and the state it sets is not deleting. *)
Lemma effect_shape (s : State) :
  (is_advance s = true /\
   exists s', effect_of s = Immediate s' /\ isDeleting s' = false /\
              step s = Updated s') \/
  (is_advance s = false /\ exists cb d, effect_of s = SetTimeout cb d).
Proof.
  unfold Typing.step, useTypingEffect, is_advance.
  destruct (isDeleting s); cbn [negb andb].
  - destruct (String.eqb (displayText s) ""); [left | right]; split; eauto.
  - right. split; [reflexivity|].
    destruct (strict_eq _ _); eauto.
Qed.

(** Two effect runs settle any state: at most one of them sets state
    directly. *)
Lemma commit_settles (k : nat) (h : Hook) :
  exists s cb d,
    commit (S (S k)) h
    = Some (mkHook s (Some (next_id h)) (timers h ++ [mkTimer (next_id h) d cb])
              (S (next_id h)) (mounted h)) /\
    effect_of s = SetTimeout cb d /\
    settled (state h) = Updated s.
Proof.
  unfold Lifecycle.settled.
  destruct (effect_shape (state h)) as [(A & s' & E & D & St)|(A & cb & d & E)];
    rewrite A.
  - assert (A' : is_advance s' = false) by (unfold is_advance; rewrite D; reflexivity).
    destruct (effect_shape s') as [(B & _)|(_ & cb & d & E')]; [congruence|].
    exists s', cb, d. cbn [Lifecycle.commit]. rewrite E.
    cbn [state next_id timers mounted clearTimeout]. rewrite E'. auto.
  - exists (state h), cb, d. cbn [Lifecycle.commit]. rewrite E. auto.
Qed.

Lemma pending_single (i : nat) (tm : Timer) :
  pending i [tm] = if Nat.eqb (timer_id tm) i then Some tm else None.
Proof. unfold pending. simpl. destruct (Nat.eqb (timer_id tm) i); reflexivity. Qed.

Lemma fire_other (i : nat) (h : Hook) (tm : Timer) :
  timers h = [tm] -> Nat.eqb (timer_id tm) i = false -> fire i h = Some h.
Proof.
  intros T E. unfold Lifecycle.fire. rewrite T, pending_single, E. reflexivity.
Qed.

Lemma fire_none (i : nat) (h : Hook) : timers h = [] -> fire i h = Some h.
Proof. intros T. unfold Lifecycle.fire. rewrite T. reflexivity. Qed.

(** Running the one pending timer. *)
Lemma fire_pending (h : Hook) (i : nat) (d : Z) (cb : State -> outcome) :
  timers h = [mkTimer i d cb] -> timeout h = Some i ->
  fire i h
  = match cb (state h) with
    | TypeError => Some (mkHook (state h) (timeout h) [] (next_id h) (mounted h))
    | Updated s' =>
        commit update_limit (mkHook s' (timeout h) [] (next_id h) (mounted h))
    end.
Proof.
  intros T O. unfold Lifecycle.fire.
  rewrite T, pending_single. cbn [timer_id callback filter].
  rewrite Nat.eqb_refl, O. cbn [negb clearTimeout filter].
  reflexivity.
Qed.

Lemma commit_shape (h : Hook) :
  exists s cb d,
    commit update_limit h
    = Some (mkHook s (Some (next_id h)) (timers h ++ [mkTimer (next_id h) d cb])
              (S (next_id h)) (mounted h)) /\
    effect_of s = SetTimeout cb d /\
    settled (state h) = Updated s.
Proof. apply (commit_settles 48 h). Qed.

Lemma timers_ok_fire (i : nat) (h : Hook) :
  timers_ok h -> exists h', fire i h = Some h' /\ timers_ok h'.
Proof.
  intros [T|(tm & T & O & M)].
  - exists h. split; [apply fire_none, T | left; exact T].
  - destruct (Nat.eqb (timer_id tm) i) eqn:E.
    + apply Nat.eqb_eq in E. subst i. destruct tm as [i0 d0 cb0].
      cbn [timer_id] in *. rewrite (fire_pending h i0 d0 cb0 T O).
      destruct (cb0 (state h)) as [s'|].
      * destruct (commit_shape (mkHook s' (timeout h) [] (next_id h) (mounted h)))
          as (s & cb & d & C & _).
        rewrite C. eexists. split; [reflexivity|].
        right. eexists. cbn [timers timeout mounted next_id app timer_id].
        repeat split. exact M.
      * eexists. split; [reflexivity|]. left. reflexivity.
    + exists h. split; [apply (fire_other i h tm T E)|]. right. eauto.
Qed.

Lemma timers_ok_unmount (h : Hook) :
  timers_ok h -> timers (unmount h) = [] /\ timers_ok (unmount h).
Proof.
  intros [T|(tm & T & O & M)]; unfold unmount, timers_ok; simpl; rewrite T.
  - destruct (timeout h); simpl; auto.
  - rewrite O. simpl. rewrite Nat.eqb_refl. simpl. auto.
Qed.

Lemma timers_ok_handle_all (evs : list event) :
  forall h, timers_ok h -> exists h', handle_all h evs = Some h' /\ timers_ok h'.
Proof.
  induction evs as [|ev evs IH]; intros h O; simpl; [eauto|].
  destruct ev as [i|]; simpl.
  - destruct (timers_ok_fire i h O) as (h1 & F & O1). rewrite F. apply IH, O1.
  - apply IH, timers_ok_unmount, O.
Qed.

Lemma mount_ok (first_id : nat) :
  exists h0, mount first_id = Some h0 /\ timers_ok h0 /\ mounted h0 = true.
Proof.
  unfold Lifecycle.mount.
  destruct (commit_shape (mkHook initial None [] first_id true))
    as (s & cb & d & C & _).
  rewrite C. eexists. split; [reflexivity|]. split; [|reflexivity].
  right. eexists. cbn [timers timeout mounted next_id app timer_id]. auto.
Qed.

(** X7. Whatever the phrase list and whatever timers the host runs, in whatever
    order, the hook never exceeds the update limit and has at most one timer
    pending; a pending timer is the one its cleanup will clear. *)
Theorem hook_at_most_one_timer (first_id : nat) (evs : list event) :
  exists h0 h,
    mount first_id = Some h0 /\ handle_all h0 evs = Some h /\
    List.length (timers h) <= 1 /\
    (forall tm, In tm (timers h) ->
       timeout h = Some (timer_id tm) /\ mounted h = true).
Proof.
  destruct (mount_ok first_id) as (h0 & M & O & _).
  destruct (timers_ok_handle_all evs h0 O) as (h & H & [T|(tm & T & TO & Mo)]).
  - exists h0, h. rewrite T. simpl. repeat split; auto; contradiction.
  - exists h0, h. rewrite T. simpl.
    split; [exact M|]. split; [exact H|]. split; [lia|].
    intros tm' [<-|[]]. split; [exact TO | exact Mo].
Qed.

Lemma arises_timers_ok (h : Hook) : arises h -> timers_ok h.
Proof.
  intros (first_id & h0 & evs & M & H).
  destruct (mount_ok first_id) as (h0' & M' & O & _).
  rewrite M in M'. injection M' as <-.
  destruct (timers_ok_handle_all evs h0 O) as (h' & H' & O').
  rewrite H in H'. injection H' as <-. exact O'.
Qed.

Lemma unmounted_is_inert (evs : list event) (h : Hook) :
  timers h = [] -> mounted h = false ->
  handle_all h evs = Some h.
Proof.
  intros T M. induction evs as [|ev evs IH]; simpl; [reflexivity|].
  destruct ev as [i|]; simpl.
  - unfold Lifecycle.fire. rewrite T. simpl. exact IH.
  - replace (unmount h) with h; [exact IH|].
    destruct h as [s t ts n m]. simpl in *. subst ts m.
    unfold unmount. simpl. destruct t; reflexivity.
Qed.

(** X8. Teardown cancels the pending timer: once the hook is unmounted no timer
    of it is pending, and no event that follows changes its state, whatever
    timer ids the host tries to run. *)
Theorem hook_teardown_cancels_timer (h : Hook) (evs : list event) :
  arises h ->
  timers (unmount h) = [] /\
  state (unmount h) = state h /\
  handle_all h (Unmount :: evs) = Some (unmount h).
Proof.
  intros A. destruct (timers_ok_unmount h (arises_timers_ok h A)) as [T _].
  split; [exact T|]. split; [reflexivity|].
  simpl. apply unmounted_is_inert; [exact T | reflexivity].
Qed.

Local Abbreviation in_step := (Lifecycle.in_step phrases typingSpeed deletingSpeed pauseDuration).

Lemma settled_reachable (s s' : State) :
  phrases <> [] -> reachable s -> settled s = Updated s' -> reachable s'.
Proof.
  unfold Lifecycle.settled. intros Hne R H.
  destruct (is_advance s); [econstructor; eassumption|].
  injection H as <-. exact R.
Qed.

Lemma in_step_commit (h : Hook) :
  phrases <> [] -> reachable (state h) -> timers h = [] -> mounted h = true ->
  exists h',
    commit update_limit h = Some h' /\ in_step h' /\ mounted h' = true /\
    settled (state h) = Updated (state h').
Proof.
  intros Hne R T M.
  destruct (commit_shape h) as (s & cb & d & C & E & S).
  rewrite C, T, M. eexists. split; [reflexivity|].
  split; [|split; [reflexivity | exact S]].
  split; [exact (settled_reachable _ _ Hne R S)|].
  split; [|discriminate].
  intros _. exists (next_id h), cb, d.
  cbn [timers timeout state app]. auto.
Qed.

Lemma in_step_fire (i : nat) (h : Hook) :
  phrases <> [] -> in_step h -> exists h', fire i h = Some h' /\ in_step h'.
Proof.
  intros Hne (R & Sc & Un).
  destruct (mounted h) eqn:M.
  - destruct (Sc eq_refl) as (i0 & cb & d & T & TO & E).
    destruct (Nat.eqb i0 i) eqn:Ei.
    + apply Nat.eqb_eq in Ei. subst i.
      rewrite (fire_pending h i0 d cb T TO).
      destruct (invariant_step phrases typingSpeed deletingSpeed pauseDuration (state h)
                  (reachable_invariant _ _ _ _ _ Hne R)) as (s1 & St & _).
      assert (C : cb (state h) = Updated s1)
        by (unfold Typing.step in St; rewrite E in St; exact St).
      rewrite C, M.
      destruct (in_step_commit (mkHook s1 (timeout h) [] (next_id h) true) Hne)
        as (h' & C' & I' & _); try reflexivity.
      * econstructor; eassumption.
      * eauto.
    + exists h. split; [apply (fire_other i h _ T Ei)|].
      split; [exact R|]. split; [intros _; exact (Sc eq_refl) | congruence].
  - exists h. split; [apply fire_none, Un; reflexivity|].
    split; [exact R|]. split; [congruence | intros _; exact (Un eq_refl)].
Qed.

Lemma in_step_unmount (h : Hook) : in_step h -> in_step (unmount h).
Proof.
  intros (R & Sc & Un). split; [exact R|]. split; [discriminate|]. intros _.
  unfold unmount. cbn [timers].
  destruct (mounted h).
  - destruct (Sc eq_refl) as (i0 & cb & d & T & TO & E).
    rewrite T, TO. cbn [clearTimeout filter timer_id].
    rewrite Nat.eqb_refl. reflexivity.
  - rewrite (Un eq_refl). destruct (timeout h); reflexivity.
Qed.

Lemma in_step_handle_all (evs : list event) :
  phrases <> [] ->
  forall h, in_step h -> exists h', handle_all h evs = Some h' /\ in_step h'.
Proof.
  intros Hne. induction evs as [|ev evs IH]; intros h I; simpl; [eauto|].
  destruct ev as [i|]; simpl.
  - destruct (in_step_fire i h Hne I) as (h1 & F & I1). rewrite F. apply IH, I1.
  - apply IH, in_step_unmount, I.
Qed.

Lemma mount_in_step (first_id : nat) :
  phrases <> [] ->
  exists h0, mount first_id = Some h0 /\ in_step h0 /\ mounted h0 = true.
Proof.
  intros Hne.
  destruct (in_step_commit (mkHook initial None [] first_id true) Hne
              (reachable_initial _ _ _ _) eq_refl eq_refl)
    as (h0 & M & I & Mo & _).
  exists h0. split; [exact M|]. split; [exact I | exact Mo].
Qed.

Lemma arises_in_step (h : Hook) : phrases <> [] -> arises h -> in_step h.
Proof.
  intros Hne (first_id & h0 & evs & M & H).
  destruct (mount_in_step first_id Hne) as (h0' & M' & I & _).
  rewrite M in M'. injection M' as <-.
  destruct (in_step_handle_all evs Hne h0 I) as (h' & H' & I').
  rewrite H in H'. injection H' as <-. exact I'.
Qed.

(** X9. The hook with its timers does what the engine's transitions say: for a
    non-empty phrase list a mounted hook has exactly one timer pending, the
    one its effect scheduled for the rendered state; running it gives the
    state of the engine's next transition, followed at once by the phrase
    advance when that transition emptied the display; running any other
    timer id changes nothing. *)
Theorem hook_fire_follows_step (h : Hook) :
  phrases <> [] -> arises h -> mounted h = true ->
  exists i cb d s1 h',
    timers h = [mkTimer i d cb] /\
    effect_of (state h) = SetTimeout cb d /\
    step (state h) = Updated s1 /\
    fire i h = Some h' /\
    settled s1 = Updated (state h') /\
    mounted h' = true /\
    (forall j, j <> i -> fire j h = Some h).
Proof.
  intros Hne A M.
  destruct (arises_in_step h Hne A) as (R & Sc & _).
  destruct (Sc M) as (i & cb & d & T & TO & E).
  destruct (invariant_step phrases typingSpeed deletingSpeed pauseDuration (state h)
              (reachable_invariant _ _ _ _ _ Hne R)) as (s1 & St & _).
  assert (C : cb (state h) = Updated s1)
    by (unfold Typing.step in St; rewrite E in St; exact St).
  assert (R1 : reachable s1) by (econstructor; eassumption).
  destruct (in_step_commit (mkHook s1 (timeout h) [] (next_id h) (mounted h)) Hne R1
              eq_refl M) as (h' & C' & _ & M' & S').
  exists i, cb, d, s1, h'.
  split; [exact T|]. split; [exact E|]. split; [exact St|].
  split; [|split; [exact S' | split; [exact M'|]]].
  - rewrite (fire_pending h i d cb T TO), C. exact C'.
  - intros j Hj. apply (fire_other j h _ T). cbn [timer_id].
    apply Nat.eqb_neq. congruence.
Qed.

End HookTimers.

(** ** Trackers and bars that never show *)

Section NeverVisible.

Import Visibility Progress ProgressTeardown.

Lemma disconnected_keeps (evs : list Visibility.event) :
  forall tr, observing tr = false -> handle_all tr evs = tr.
Proof.
  induction evs as [|ev evs IH]; intros tr H; simpl; [reflexivity|].
  destruct ev as [entry rest|]; simpl.
  - rewrite H. simpl. apply IH, H.
  - replace (mkTracker (isVisible tr) (threshold tr) false) with tr
      by (destruct tr; simpl in *; subst; reflexivity).
    apply IH, H.
Qed.

(** X10. A tracker whose element is not attached when the effect runs, or whose
    view is torn down before any intersection, never signals visibility,
    whatever notifications follow. *)
Theorem tracker_without_target_stays_hidden (thr : Q) (evs : list Visibility.event) :
  isVisible (handle_all (useScrollAnimation thr false) evs) = false /\
  fire_count (useScrollAnimation thr false) evs = 0 /\
  isVisible (handle_all (useScrollAnimation thr true) (Unmount :: evs)) = false /\
  fire_count (useScrollAnimation thr true) (Unmount :: evs) = 0.
Proof.
  split; [rewrite disconnected_keeps; reflexivity|].
  split; [apply disconnected_never_fires; reflexivity|].
  split; [simpl; rewrite disconnected_keeps; reflexivity|].
  simpl. apply disconnected_never_fires. reflexivity.
Qed.

Section Inert.

Variable value : Z.

Lemma inert_notify (now : Z) (entry : Entry) (rest : list Entry) (b : Bar) :
  timer b = None -> observing (tracker b) = false ->
  Progress.notify value now entry rest b = b.
Proof.
  intros T O. unfold Progress.notify, Progress.fire_due. rewrite T.
  simpl. rewrite O. simpl.
  destruct (isVisible (tracker b)); simpl; destruct b; simpl in *; subst; reflexivity.
Qed.

Lemma inert_at_time (evs : list timed) (t : Z) (b : Bar) :
  timer b = None -> observing (tracker b) = false ->
  Progress.at_time value b evs t = b.
Proof.
  intros T O. unfold Progress.at_time.
  assert (E : Progress.notify_all value b evs = b).
  { induction evs as [|[now [entry rest]] evs IH]; simpl; [reflexivity|].
    rewrite inert_notify by assumption. exact IH. }
  rewrite E. unfold Progress.fire_due. rewrite T. reflexivity.
Qed.

(** X11. A bar that only receives notifications without intersection stays
    as mounted: its width is 0 at all times, no timer is scheduled and
    [setWidth] is never called. *)
Theorem bar_hidden_stays_empty (quiet : list timed) (t : Z) :
  forallb (fun ev => negb (isIntersecting (fst (snd ev)))) quiet = true ->
  Progress.at_time value (AnimatedProgressBar true) quiet t = AnimatedProgressBar true /\
  width (Progress.at_time value (AnimatedProgressBar true) quiet t) = 0%Z /\
  timer (Progress.at_time value (AnimatedProgressBar true) quiet t) = None /\
  setWidth_calls (Progress.at_time value (AnimatedProgressBar true) quiet t) = 0.
Proof.
  intros Q.
  assert (E : Progress.at_time value (AnimatedProgressBar true) quiet t
              = AnimatedProgressBar true).
  { unfold Progress.at_time. rewrite (quiet_notifications value quiet Q). reflexivity. }
  rewrite E. repeat split.
Qed.

(** X12. Teardown cancels the bar's timer: a bar that became visible at [tv] and
    is torn down before [tv + 200] never calls [setWidth], so its width is
    0 at all later times; torn down from [tv + 200] on, it keeps the
    target. *)
Theorem bar_teardown_cancels_timer
    (quiet later : list timed) (tv tu t : Z) (entry : Entry) (rest : list Entry) :
  forallb (fun ev => negb (isIntersecting (fst (snd ev)))) quiet = true ->
  isIntersecting entry = true ->
  let shown :=
    Progress.notify_all value (AnimatedProgressBar true) (quiet ++ [(tv, (entry, rest))]) in
  let final := Progress.at_time value (unmount value tu shown) later t in
  ((tu < tv + 200)%Z -> width final = 0%Z /\ setWidth_calls final = 0) /\
  ((tv + 200 <= tu)%Z -> width final = value /\ setWidth_calls final = 1).
Proof.
  intros Q I shown final.
  assert (S : shown
              = mkBar (mkTracker true default_threshold false) 0
                  (Some (tv + 200)%Z) None 0).
  { unfold shown. rewrite notify_all_app, (quiet_notifications value quiet Q). simpl.
    apply becomes_visible, I. }
  unfold final. rewrite inert_at_time; [|reflexivity|].
  - rewrite S. unfold unmount, Progress.fire_due. simpl.
    split; intros H; destruct (Z.leb_spec (tv + 200) tu); try lia; simpl; auto.
  - unfold unmount. reflexivity.
Qed.

End Inert.

(** X13. Before a ring is visible its stroke offset is 0, so the ring is drawn in
    full; once visible the offset is the circumference minus target/100 of
    it, so target/100 of the circumference is drawn.  For a target within
    [0,100] the drawn part thus shrinks, strictly when the target is below
    100, and for the target 100 nothing changes. *)
Theorem ring_starts_full (c : Q) (v : Z) :
  (0 < c)%Q -> (0 <= v <= 100)%Z ->
  (strokeDashoffset c v false == 0)%Q /\
  (stroke_fill c v false == c)%Q /\
  (strokeDashoffset c v true == c - inject_Z v / 100 * c)%Q /\
  (stroke_fill c v true == inject_Z v / 100 * c)%Q /\
  (stroke_fill c v true <= stroke_fill c v false)%Q /\
  (0 <= strokeDashoffset c v true)%Q /\
  ((v < 100)%Z -> (stroke_fill c v true < stroke_fill c v false)%Q) /\
  (v = 100%Z -> (strokeDashoffset c v true == strokeDashoffset c v false)%Q).
Proof.
  intros Hc Hv.
  pose proof (stroke_fill_in_range c v true Hc Hv) as [_ F].
  assert (E0 : (strokeDashoffset c v false == 0)%Q)
    by (unfold strokeDashoffset; ring).
  assert (E1 : (stroke_fill c v false == c)%Q)
    by (unfold stroke_fill, strokeDashoffset; ring).
  split; [exact E0|]. split; [exact E1|].
  split; [reflexivity|]. split; [apply stroke_fill_visible|].
  split; [rewrite E1; exact F|].
  split; [unfold stroke_fill in F; lra|].
  split.
  - intros Hlt. rewrite E1, stroke_fill_visible.
    assert (X : (inject_Z v < 100)%Q).
    { change 100%Q with (inject_Z 100). rewrite <- Zlt_Qlt. exact Hlt. }
    set (x := inject_Z v) in *.
    setoid_replace (x / 100 * c)%Q with ((1 # 100) * (x * c))%Q by field.
    nra.
  - intros ->. rewrite E0. unfold strokeDashoffset.
    change (inject_Z 100) with 100%Q. field.
Qed.

End NeverVisible.

(** ** The navigation bar under events *)

Section NavigationEvents.

Import Nav NavEvents.

Lemma scan_in (ids : list string) (w : Window) (id : string) :
  forall n, scan ids w n = Some id -> In id ids /\ passed w id = true.
Proof.
  unfold passed.
  induction n as [|i IH]; simpl; [discriminate|].
  destruct (nth_error ids i) as [x|] eqn:N; [|exact IH].
  destruct (getElementById w x) as [top|] eqn:G; [|exact IH].
  destruct (top <=? scrollY w + 80)%Z eqn:L; [|exact IH].
  intros H. injection H as <-. rewrite G, L.
  split; [eapply nth_error_In; eassumption | reflexivity].
Qed.

Lemma handle_active_in (s : State) (ev : event) :
  In (activeSection s) sectionIds -> In (activeSection (handle s ev)) sectionIds.
Proof.
  intros H. destruct ev as [w|id|]; [|exact H|exact H].
  unfold handle, handleScroll, handleScroll_on. cbn [activeSection].
  generalize (scan_in sectionIds w).
  generalize (List.length sectionIds). intros n I.
  destruct (scan sectionIds w n) as [id|] eqn:S; [|exact H].
  apply (I id n S).
Qed.

Lemma handle_all_active_in (evs : list event) :
  forall s, In (activeSection s) sectionIds ->
            In (activeSection (handle_all s evs)) sectionIds.
Proof.
  induction evs as [|ev evs IH]; intros s H; simpl; [exact H|].
  apply IH, handle_active_in, H.
Qed.

(** X14. Whatever scroll events, link clicks and menu clicks happen after the
    mount, in whatever windows, the active section is one of the ids of
    [NAV_LINKS], and exactly one link is drawn as active. *)
Theorem nav_one_link_highlighted (evs : list event) :
  In (activeSection (handle_all Navbar evs)) sectionIds /\
  exists link,
    highlighted (handle_all Navbar evs) = [link] /\
    fst link = activeSection (handle_all Navbar evs).
Proof.
  assert (H : In (activeSection (handle_all Navbar evs)) sectionIds)
    by (apply handle_all_active_in; simpl; auto).
  split; [exact H|].
  unfold highlighted. simpl in H.
  repeat (destruct H as [<-|H]; [eexists; split; reflexivity|]).
  contradiction.
Qed.



(** X16. Handling the same scroll event twice is the same as handling it once,
    and when some section is passed the outcome does not depend on which
    section was active before. *)
Theorem nav_scroll_idempotent (w : Window) (s s' : State) :
  handleScroll w (handleScroll w s) = handleScroll w s /\
  (latest_passed sectionIds w <> None ->
   mobileOpen s = mobileOpen s' ->
   handleScroll w s = handleScroll w s').
Proof.
  unfold handleScroll, handleScroll_on.
  rewrite (scan_latest_passed w sectionIds).
  split.
  - simpl. destruct (latest_passed sectionIds w); reflexivity.
  - intros N M. rewrite M.
    destruct (latest_passed sectionIds w); [reflexivity | congruence].
Qed.

Lemma nondecreasing_snoc (l : list Z) (a : Z) :
  nondecreasing (l ++ [a]) = true ->
  nondecreasing l = true /\ Forall (fun b => (b <= a)%Z) l.
Proof.
  induction l as [|b l IH]; intros H; [auto|].
  destruct l as [|c l].
  - simpl in H. apply andb_prop in H as [H _].
    split; [reflexivity|]. repeat constructor. lia.
  - change (((b <=? c)%Z && nondecreasing ((c :: l) ++ [a])) = true) in H.
    apply andb_prop in H as [H1 H2].
    destruct (IH H2) as [S F].
    split.
    + change (((b <=? c)%Z && nondecreasing (c :: l)) = true).
      rewrite H1, S. reflexivity.
    + constructor; [|exact F].
      inversion F; subst. lia.
Qed.

Lemma tops_in (ids : list string) (w : Window) (id : string) (top : Z) :
  In id ids -> getElementById w id = Some top -> In top (tops ids w).
Proof.
  intros H G. unfold tops. apply in_flat_map.
  exists id. split; [exact H|]. rewrite G. left. reflexivity.
Qed.

Lemma scan_greatest (w : Window) (ids : list string) :
  nondecreasing (tops ids w) = true ->
  forall id,
    scan ids w (List.length ids) = Some id ->
    exists top,
      getElementById w id = Some top /\ (top <= scrollY w + 80)%Z /\
      forall id' top',
        In id' ids -> getElementById w id' = Some top' ->
        (top' <= scrollY w + 80)%Z -> (top' <= top)%Z.
Proof.
  induction ids as [|x l IH] using rev_ind; intros S id H; [discriminate|].
  rewrite scan_snoc in H. unfold tops in S. rewrite flat_map_app in S.
  simpl in S. fold (tops l w) in S.
  destruct (getElementById w x) as [tx|] eqn:G.
  - rewrite app_nil_r in S. apply nondecreasing_snoc in S as [S F].
    destruct (Z.leb_spec tx (scrollY w + 80)) as [L|L].
    + injection H as <-. exists tx. repeat split; auto.
      intros id' top' Hin G' _. apply in_app_or in Hin as [Hin|[<-|[]]].
      * rewrite Forall_forall in F. apply F. eapply tops_in; eassumption.
      * assert (top' = tx) by congruence. lia.
    + destruct (IH S id H) as (top & Gt & Lt & M).
      exists top. repeat split; auto.
      intros id' top' Hin G' L'. apply in_app_or in Hin as [Hin|[<-|[]]].
      * eapply M; eassumption.
      * assert (top' = tx) by congruence. lia.
  - rewrite !app_nil_r in S.
    destruct (IH S id H) as (top & Gt & Lt & M).
    exists top. repeat split; auto.
    intros id' top' Hin G' L'. apply in_app_or in Hin as [Hin|[<-|[]]].
    + eapply M; eassumption.
    + congruence.
Qed.

(** X17. When the tops of the sections present do not decrease in document
    order, the section a scroll event makes active is the nearest one
    above the scroll position plus 80: it is passed, and no passed section
    has a greater top. *)
Theorem nav_active_is_nearest_passed (w : Window) (s : State) (id : string) :
  nondecreasing (tops sectionIds w) = true ->
  latest_passed sectionIds w = Some id ->
  activeSection (handleScroll w s) = id /\
  exists top,
    getElementById w id = Some top /\ (top <= scrollY w + 80)%Z /\
    forall id' top',
      In id' sectionIds -> getElementById w id' = Some top' ->
      (top' <= scrollY w + 80)%Z -> (top' <= top)%Z.
Proof.
  intros S L. split.
  - unfold handleScroll, handleScroll_on. cbn [activeSection].
    rewrite (scan_latest_passed w sectionIds), L. reflexivity.
  - apply (scan_greatest w sectionIds S).
    rewrite scan_latest_passed. exact L.
Qed.

End NavigationEvents.

(** ** The further properties on concrete inputs *)

Section TypingInstances.

Import JS Typing TypingClock.

Lemma typing_never_faults_witness :
  exists s i p,
    run ["A"; "BB"] 10 5 100 7 initial = Updated s /\
    phraseIndex s = Num i /\ nth_error ["A"; "BB"] i = Some p /\
    prefix (displayText s) p = true.
Proof.
  apply (typing_never_faults ["A"; "BB"] 10 5 100 7). discriminate.
Defined.

Lemma typing_step_changes_state_witness :
  mkState "" (Num 0) false <> mkState "" (Num 0) true /\
  (displayText (mkState "" (Num 0) false) <> displayText (mkState "" (Num 0) true) \/
   isDeleting (mkState "" (Num 0) false) <> isDeleting (mkState "" (Num 0) true)).
Proof.
  apply (typing_step_changes_state ["A"] 10 5 100). reflexivity.
Defined.

Lemma typing_shows_every_phrase_witness :
  run ["A"; "BB"] 10 5 100 (cycles_steps ["A"; "BB"] 1 + String.length "BB") initial
  = Updated (mkState "BB" (Num 1) false) /\
  step ["A"; "BB"] 10 5 100 (mkState "BB" (Num 1) false)
  = Updated (mkState "BB" (Num 1) true).
Proof.
  apply (typing_shows_every_phrase ["A"; "BB"] 10 5 100 1 "BB"). reflexivity.
Defined.

Lemma typing_is_periodic_witness :
  run ["A"; "BB"] 10 5 100 (cycles_steps ["A"; "BB"] 2) initial = Updated initial /\
  run ["A"; "BB"] 10 5 100 (cycles_steps ["A"; "BB"] 2 + 3) initial
  = run ["A"; "BB"] 10 5 100 3 initial.
Proof.
  apply (typing_is_periodic ["A"; "BB"] 10 5 100 3). discriminate.
Defined.

Lemma typing_cycle_duration_witness :
  elapsed ["A"; "BB"] 10 5 100 (cycle_steps "BB") (mkState "" (Num 1) false)
  = (Z.of_nat (String.length "BB") * clamp_delay 10 + clamp_delay 100
     + Z.of_nat (String.length "BB") * clamp_delay 5)%Z.
Proof.
  apply (typing_cycle_duration ["A"; "BB"] 10 5 100 1 "BB"). reflexivity.
Defined.

Lemma typing_zero_delays_spin_witness :
  sample ["A"; "BB"] 0 0 0 100 0 initial 5 = None.
Proof.
  apply (typing_zero_delays_spin ["A"; "BB"] 0 0 0 100 5); [discriminate | lia ..].
Defined.

Lemma typing_display_defined_at_witness :
  exists r,
    sample ["A"; "BB"] 10 5 100 47 0 initial 115 = Some r /\
    reachable ["A"; "BB"] 10 5 100 r.
Proof.
  apply (typing_display_defined_at ["A"; "BB"] 10 5 100 5 115 47);
    [discriminate | lia | lia | lia | lia | lia | vm_compute; lia].
Defined.

End TypingInstances.

Section HookInstances.

Import JS Typing Lifecycle.

Lemma hook_teardown_cancels_timer_witness :
  exists h,
    mount ["A"] 80 50 1800 0 = Some h /\
    timers (unmount h) = [] /\
    state (unmount h) = state h /\
    handle_all ["A"] 80 50 1800 h [Unmount; Fire 0; Fire 1] = Some (unmount h).
Proof.
  eexists. split; [reflexivity|].
  apply (hook_teardown_cancels_timer ["A"] 80 50 1800 _ [Fire 0; Fire 1]).
  unfold arises. eexists 0, _, []. split; reflexivity.
Defined.

Lemma hook_fire_follows_step_witness :
  exists h i cb d s1 h',
    mount ["A"] 80 50 1800 0 = Some h /\
    timers h = [mkTimer i d cb] /\
    useTypingEffect ["A"] 80 50 1800 (state h) = SetTimeout cb d /\
    step ["A"] 80 50 1800 (state h) = Updated s1 /\
    fire ["A"] 80 50 1800 i h = Some h' /\
    settled ["A"] 80 50 1800 s1 = Updated (state h') /\
    mounted h' = true /\
    (forall j, j <> i -> fire ["A"] 80 50 1800 j h = Some h).
Proof.
  assert (E : exists h, mount ["A"] 80 50 1800 0 = Some h /\ mounted h = true)
    by (eexists; split; reflexivity).
  destruct E as (h & M & Mo).
  destruct (hook_fire_follows_step ["A"] 80 50 1800 h) as (i & cb & d & s1 & h' & H).
  - discriminate.
  - exists 0, h, []. split; [exact M | reflexivity].
  - exact Mo.
  - exists h, i, cb, d, s1, h'. split; [exact M | exact H].
Defined.

End HookInstances.

Section ProgressInstances.

Import Visibility Progress ProgressTeardown.

Lemma bar_teardown_cancels_timer_witness :
  width (at_time 85 (unmount 85 100
                       (notify_all 85 (AnimatedProgressBar true)
                          (@nil timed ++ [(40%Z, (mkEntry true, []))])%list))
           [(300, (mkEntry true, []))]%Z 2000)
  = 0%Z /\
  setWidth_calls (at_time 85 (unmount 85 100
                                (notify_all 85 (AnimatedProgressBar true)
                                   (@nil timed ++ [(40%Z, (mkEntry true, []))])%list))
                    [(300, (mkEntry true, []))]%Z 2000)
  = 0.
Proof.
  apply (proj1 (bar_teardown_cancels_timer 85 [] [(300, (mkEntry true, []))]%Z
                  40 100 2000 (mkEntry true) [] eq_refl eq_refl)).
  lia.
Defined.

Lemma ring_starts_full_witness :
  (strokeDashoffset 1 90 false == 0)%Q /\
  (stroke_fill 1 90 false == 1)%Q /\
  (strokeDashoffset 1 90 true == 1 - inject_Z 90 / 100 * 1)%Q /\
  (stroke_fill 1 90 true == inject_Z 90 / 100 * 1)%Q /\
  (stroke_fill 1 90 true <= stroke_fill 1 90 false)%Q /\
  (0 <= strokeDashoffset 1 90 true)%Q /\
  ((90 < 100)%Z -> (stroke_fill 1 90 true < stroke_fill 1 90 false)%Q) /\
  (90%Z = 100%Z -> (strokeDashoffset 1 90 true == strokeDashoffset 1 90 false)%Q).
Proof.
  apply (ring_starts_full 1 90); [reflexivity | lia].
Defined.

Lemma bar_hidden_stays_empty_witness :
  at_time 85 (AnimatedProgressBar true)
    [(0, (mkEntry false, [])); (40, (mkEntry false, [mkEntry true]))]%Z 5000
  = AnimatedProgressBar true /\
  width (at_time 85 (AnimatedProgressBar true)
           [(0, (mkEntry false, [])); (40, (mkEntry false, [mkEntry true]))]%Z 5000)
  = 0%Z /\
  timer (at_time 85 (AnimatedProgressBar true)
           [(0, (mkEntry false, [])); (40, (mkEntry false, [mkEntry true]))]%Z 5000)
  = None /\
  setWidth_calls (at_time 85 (AnimatedProgressBar true)
                    [(0, (mkEntry false, [])); (40, (mkEntry false, [mkEntry true]))]%Z 5000)
  = 0.
Proof.
  apply (bar_hidden_stays_empty 85
           [(0, (mkEntry false, [])); (40, (mkEntry false, [mkEntry true]))]%Z 5000).
  reflexivity.
Defined.

End ProgressInstances.

Section NavInstances.

Import Nav NavEvents.


Lemma nav_scroll_idempotent_witness :
  handleScroll example_window Navbar
  = handleScroll example_window (mkState true false "contact").
Proof.
  apply (proj2 (nav_scroll_idempotent example_window Navbar
                  (mkState true false "contact")));
    [discriminate | reflexivity].
Defined.

Lemma nav_active_is_nearest_passed_witness :
  activeSection (handleScroll example_window Navbar) = "about" /\
  exists top,
    getElementById example_window "about" = Some top /\
    (top <= scrollY example_window + 80)%Z /\
    forall id' top',
      In id' sectionIds -> getElementById example_window id' = Some top' ->
      (top' <= scrollY example_window + 80)%Z -> (top' <= top)%Z.
Proof.
  apply (nav_active_is_nearest_passed example_window Navbar "about"); reflexivity.
Defined.

End NavInstances.
